(** * A verified model of the JSON extraction / validation / retry loop

    The development follows [json_runner.py], [llm_client.py] and
    [schemas.py]:

    - [PyStr]: Python [str] values as sequences of code points, with the
      operations the program uses ([strip], [in], concatenation);
    - [Re]: a backtracking matcher for the fragment of Python's [re] that the
      two fence patterns of [_extract_json] are written in;
    - [_extract_json]: the extractor;
    - [ask_llm_for_json]: the retry loop, over an arbitrary completion
      service, JSON decoder and schema class;
    - [Json]: a model of [json.loads];
    - [Schemas]: the [Citation] and [QAResponse] schema classes. *)

From Stdlib Require Import String Ascii DecimalString.
From Stdlib Require Import List NArith ZArith Bool Lia.
Import ListNotations.

Set Implicit Arguments.

(** ** Python strings *)

Module PyStr.

(** A Python [str] is a sequence of Unicode code points. *)
Definition char := N.
Definition str := list char.

(** The string literals of the source, all ASCII, are written with [lit]. *)
Definition lit (s : string) : str :=
  List.map N_of_ascii (list_ascii_of_string s).

Definition NL : char := 10%N.
Definition DQUOTE : char := 34%N.
Definition BACKTICK : char := 96%N.

Definition str_eqb (a b : str) : bool :=
  if list_eq_dec N.eq_dec a b then true else false.

(** [c.isspace()]: the code points CPython classifies as whitespace. The same
    predicate drives [str.strip()] and the [\s] class of [re] on [str]
    patterns. *)
Definition isspace (c : char) : bool :=
  ((9 <=? c) && (c <=? 13) || (28 <=? c) && (c <=? 32)
   || (c =? 133) || (c =? 160) || (c =? 5760)
   || (8192 <=? c) && (c <=? 8202)
   || (c =? 8232) || (c =? 8233) || (c =? 8239) || (c =? 8287)
   || (c =? 12288))%N.

Fixpoint lstrip (s : str) : str :=
  match s with
  | c :: s' => if isspace c then lstrip s' else s
  | [] => []
  end.

Fixpoint rstrip (s : str) : str :=
  match s with
  | c :: s' =>
      match rstrip s' with
      | [] => if isspace c then [] else [c]
      | r => c :: r
      end
  | [] => []
  end.

(** [s.strip()] *)
Definition strip (s : str) : str := rstrip (lstrip s).

(** [s.startswith(p)], returning the rest of [s] after [p]. *)
Fixpoint drop_prefix (p s : str) : option str :=
  match p, s with
  | [], _ => Some s
  | a :: p', b :: s' => if (a =? b)%N then drop_prefix p' s' else None
  | _ :: _, [] => None
  end.

Definition startswith (s p : str) : bool :=
  match drop_prefix p s with Some _ => true | None => false end.

(** [needle in s] *)
Fixpoint contains (needle s : str) : bool :=
  startswith s needle
  || match s with
     | [] => false
     | _ :: s' => contains needle s'
     end.

(** [s.find(needle)], with [None] for Python's [-1]. *)
Fixpoint find (needle s : str) : option nat :=
  if startswith s needle then Some 0
  else match s with
       | [] => None
       | _ :: s' => option_map S (find needle s')
       end.

(** [s.count(needle)] for a non-empty [needle]: occurrences are counted
    without overlap, scanning from the left. The skip after a hit is
    [length needle - 1] further characters. *)
Fixpoint count_from (needle s : str) (skip : nat) : nat :=
  match s with
  | [] => 0
  | _ :: s' =>
      match skip with
      | S k => count_from needle s' k
      | O => if startswith s needle
             then S (count_from needle s' (length needle - 1))
             else count_from needle s' 0
      end
  end.

Definition count (needle s : str) : nat := count_from needle s 0.

(** [str(n)] for an [int]. *)
Definition str_of_Z (n : Z) : str :=
  lit (NilEmpty.string_of_int (Z.to_int n)).

Definition str_of_nat (n : nat) : str := str_of_Z (Z.of_nat n).

End PyStr.

Import PyStr.

(** ** The fragment of Python's [re] used by the extractor

    Python's matcher is a backtracking one: alternatives are tried in a fixed
    order and the first complete match wins. [exec] is written in
    continuation-passing style, the continuation standing for the rest of
    the pattern; [None] means that the alternative failed and the matcher
    backtracks. *)

Module Re.

Inductive regex : Type :=
| Lit (l : str)                    (* literal text *)
| Star (cls : char -> bool)        (* [cls*], greedy *)
| LazyStar (cls : char -> bool)    (* [cls*?], non-greedy *)
| Group (r : regex)                (* [( r )], capture group 1 *)
| Seq (r1 r2 : regex).

Section Exec.
Variable A : Type.

(** Greedy repetition: consume as many characters as possible, give one back
    at a time while the continuation fails. *)
Fixpoint star_greedy (cls : char -> bool) (s : str)
    (k : str -> option A) : option A :=
  match s with
  | c :: s' =>
      if cls c then
        match star_greedy cls s' k with
        | Some a => Some a
        | None => k s
        end
      else k s
  | [] => k []
  end.

(** Non-greedy repetition: try the continuation first, consume one more
    character each time it fails. *)
Fixpoint star_lazy (cls : char -> bool) (s : str)
    (k : str -> option A) : option A :=
  match k s with
  | Some a => Some a
  | None =>
      match s with
      | c :: s' => if cls c then star_lazy cls s' k else None
      | [] => None
      end
  end.

(** [exec r s g k]: match [r] at the start of [s]; [g] is the text captured
    by group 1 so far; [k] receives what is left of [s] and the capture. *)
Fixpoint exec (r : regex) (s : str) (g : option str)
    (k : str -> option str -> option A) : option A :=
  match r with
  | Lit l =>
      match drop_prefix l s with
      | Some s' => k s' g
      | None => None
      end
  | Star cls => star_greedy cls s (fun s' => k s' g)
  | LazyStar cls => star_lazy cls s (fun s' => k s' g)
  | Group r' =>
      exec r' s g
        (fun s' _ => k s' (Some (firstn (length s - length s') s)))
  | Seq r1 r2 => exec r1 s g (fun s' g' => exec r2 s' g' k)
  end.

End Exec.

(** A match object, as far as the program looks at it: [m.group(1)]. *)
Record match_ : Type := { group1 : option str }.

(** [re.match]: the pattern must match at the start of [s]. *)
Definition match_at (r : regex) (s : str) : option match_ :=
  exec r s None (fun _ g => Some {| group1 := g |}).

(** [re.search(r, s)]: the leftmost position at which [r] matches. *)
Fixpoint search (r : regex) (s : str) : option match_ :=
  match match_at r s with
  | Some m => Some m
  | None =>
      match s with
      | [] => None
      | _ :: s' => search r s'
      end
  end.

(** [m.group(1)]; the group of both fence patterns always takes part in a
    match, so the [None] of a group that did not is read as the empty
    string here. *)
Definition group_1 (m : match_) : str :=
  match group1 m with Some g => g | None => [] end.

(** The character class [[\s\S]]. *)
Definition space_or_not (c : char) : bool := isspace c || negb (isspace c).

End Re.

(** ** The extractor ([json_runner.py], [_extract_json]) *)

Open Scope string_scope.
Open Scope list_scope.

Definition FENCE : str := lit "```".
Definition JSON_FENCE : str := lit "```json".

(** [r"```json\s*([\s\S]*?)\s*```"] *)
Definition json_fence_re : Re.regex :=
  Re.Seq (Re.Lit JSON_FENCE)
    (Re.Seq (Re.Star isspace)
       (Re.Seq (Re.Group (Re.LazyStar Re.space_or_not))
          (Re.Seq (Re.Star isspace) (Re.Lit FENCE)))).

(** [r"```\s*([\s\S]*?)\s*```"] *)
Definition plain_fence_re : Re.regex :=
  Re.Seq (Re.Lit FENCE)
    (Re.Seq (Re.Star isspace)
       (Re.Seq (Re.Group (Re.LazyStar Re.space_or_not))
          (Re.Seq (Re.Star isspace) (Re.Lit FENCE)))).

(** Both patterns have one shape and differ in the opening literal only. *)
Definition fence_re (opening : str) : Re.regex :=
  Re.Seq (Re.Lit opening)
    (Re.Seq (Re.Star isspace)
       (Re.Seq (Re.Group (Re.LazyStar Re.space_or_not))
          (Re.Seq (Re.Star isspace) (Re.Lit FENCE)))).

(** [\s*```] matches at the start of [s]. *)
Definition closes (s : str) : bool := startswith (lstrip s) FENCE.

(** The second [if] of [_extract_json] and the final [return text]. *)
Definition extract_plain (text : str) : str :=
  if contains FENCE text then
    match Re.search plain_fence_re text with
    | Some m => strip (Re.group_1 m)
    | None => text
    end
  else text.

(** [_extract_json] after [text = text.strip()]. *)
Definition extract_stripped (text : str) : str :=
  if contains JSON_FENCE text then
    match Re.search json_fence_re text with
    | Some m => strip (Re.group_1 m)
    | None => extract_plain text
    end
  else extract_plain text.

Definition _extract_json (text : str) : str :=
  let text := strip text in
  extract_stripped text.

(** [text] holds a complete fenced block opened by [opening]. *)
Definition has_block (opening text : str) : Prop :=
  exists pre body post, text = pre ++ opening ++ body ++ FENCE ++ post.

(** The first complete fenced block of [text] opened by [opening]: [pre] ends
    where the first [opening] of the text starts, and [body] runs from there
    to the first closing fence. *)
Definition first_block (opening text pre body post : str) : Prop :=
  text = pre ++ opening ++ body ++ FENCE ++ post /\
  find opening text = Some (length pre) /\
  find FENCE (body ++ FENCE ++ post) = Some (length body).

(** ** The validating retry loop ([json_runner.py], [ask_llm_for_json])

    The loop is written over its three collaborators: the completion service
    behind [call_llm], the decoder [json.loads] and the schema class it is
    given. The service is stateful and may answer differently each time, so
    its state is threaded through the calls and every prompt sent is
    logged. *)

Inductive decode_result (json exn : Type) : Type :=
| Parsed (data : json)
| JSONDecodeError (e : str)          (* [json.JSONDecodeError]; [e] is [str(e)] *)
| DecodeRaises (x : exn).            (* any other exception of [json.loads] *)

Inductive validate_result (T exn : Type) : Type :=
| Valid (v : T)
| ValidationError (e : str)          (* [pydantic.ValidationError]; [e] is [str(e)] *)
| ValidateRaises (x : exn).          (* any other exception of [model_validate] *)

Arguments Parsed {json exn}.
Arguments JSONDecodeError {json exn}.
Arguments DecodeRaises {json exn}.
Arguments Valid {T exn}.
Arguments ValidationError {T exn}.
Arguments ValidateRaises {T exn}.

(** A schema class: a subclass of [BaseModel] with instances of type [T]. *)
Record schema_class (json exn T : Type) : Type :=
  { model_validate : json -> validate_result T exn }.

(** One chat message, [{"role": ..., "content": ...}]. *)
Record message : Type := { role : str; content : str }.

(** What [ask_llm_for_json] raises: the [ValueError] of its last line, or an
    exception that passes through it. *)
Inductive exception (exn : Type) : Type :=
| ValueError (msg : str)
| Uncaught (x : exn).

Arguments ValueError {exn}.
Arguments Uncaught {exn}.

(** How a call of [ask_llm_for_json] ends. [ReturnNone] is the implicit
    [return None] of a function body that runs to its end. *)
Inductive result (T exn : Type) : Type :=
| Return (v : T)
| ReturnNone
| Raise (e : exception exn).

Arguments Return {T exn}.
Arguments ReturnNone {T exn}.
Arguments Raise {T exn}.

(** What one pass through the loop body up to the [except] clauses gives. *)
Inductive attempt_result (T exn : Type) : Type :=
| Validated (v : T)
| Invalid (last_error : str)
| Faulted (x : exn).

Arguments Validated {T exn}.
Arguments Invalid {T exn}.
Arguments Faulted {T exn}.

(** A finished call: the state the service is left in, the prompts sent to
    it in order, and the outcome. *)
Record run (service T exn : Type) : Type :=
  { final : service; calls : list str; outcome : result T exn }.

Definition MAX_RETRIES : Z := 3.
Definition DEFAULT_MODEL : str := lit "llama3.2".

(** [range(n)] *)
Definition range (n : Z) : list Z := List.map Z.of_nat (seq 0 (Z.to_nat n)).

(** The f-string of lines 72-78: the current prompt followed by the
    corrective text around [last_error]. *)
Definition corrective_suffix (last_error : str) : str :=
  [NL] ++ lit "            ---" ++
  [NL] ++ lit "            Your previous response was invalid:" ++
  [NL] ++ lit "            " ++ last_error ++
  [NL] ++
  [NL] ++ lit "            Please fix the JSON and return ONLY valid JSON matching the schema. No other text." ++
  [NL] ++ lit "            ".

Definition corrective_prompt (current_prompt last_error : str) : str :=
  current_prompt ++ corrective_suffix last_error.

(** The f-string of line 80. *)
Definition exhausted_message (max_retries : Z) (last_error : str) : str :=
  lit "Failed after " ++ str_of_Z max_retries ++
  lit " attempts. Last error: " ++ last_error.

Section AskLLM.

Variables service exn json T : Type.

(** [ollama.chat(model=..., messages=..., options={"temperature": 0.1})],
    reduced to [resp["message"]["content"]]; whatever goes wrong in it is an
    [exn]. *)
Variable ollama_chat : service -> str -> list message -> service * (exn + str).

Variable json_loads : str -> decode_result json exn.

(** [llm_client.py], [call_llm] *)
Definition call_llm (w : service) (prompt model : str)
  : service * (exn + str) :=
  ollama_chat w model [{| role := lit "user"; content := prompt |}].

(** The [try] block with its two [except] clauses (lines 63-69). *)
Definition parse_and_validate (schema_cls : schema_class json exn T)
    (json_str : str) : attempt_result T exn :=
  match json_loads json_str with
  | Parsed data =>
      match model_validate schema_cls data with
      | Valid v => Validated v
      | ValidationError e => Invalid (lit "Schema validation error: " ++ e)
      | ValidateRaises x => Faulted x
      end
  | JSONDecodeError e => Invalid (lit "JSON decode error: " ++ e)
  | DecodeRaises x => Faulted x
  end.

(** Lines 60-69: one request and what becomes of the response. *)
Definition attempt (schema_cls : schema_class json exn T) (model : str)
    (w : service) (current_prompt : str) : service * attempt_result T exn :=
  match call_llm w current_prompt model with
  | (w', inl x) => (w', Faulted x)
  | (w', inr raw) =>
      let json_str := _extract_json raw in
      (w', parse_and_validate schema_cls json_str)
  end.

(** The [for] loop over the attempt numbers still to run. *)
Fixpoint for_attempt (schema_cls : schema_class json exn T) (model : str)
    (max_retries : Z) (todo : list Z) (w : service) (sent : list str)
    (current_prompt : str) (last_error : option str) : run service T exn :=
  match todo with
  | [] => {| final := w; calls := sent; outcome := ReturnNone |}
  | attempt_no :: todo' =>
      let (w', r) := attempt schema_cls model w current_prompt in
      let sent' := sent ++ [current_prompt] in
      match r with
      | Validated v =>
          {| final := w'; calls := sent'; outcome := Return v |}
      | Faulted x =>
          {| final := w'; calls := sent'; outcome := Raise (Uncaught x) |}
      | Invalid last_error =>
          if (attempt_no <? max_retries - 1)%Z then
            for_attempt schema_cls model max_retries todo' w' sent'
              (corrective_prompt current_prompt last_error) (Some last_error)
          else
            {| final := w'; calls := sent';
               outcome :=
                 Raise (ValueError (exhausted_message max_retries last_error)) |}
      end
  end.

Definition ask_llm_for_json (prompt : str)
    (schema_cls : schema_class json exn T) (model : str) (max_retries : Z)
    (w : service) : run service T exn :=
  let current_prompt := prompt in
  let last_error : option str := None in
  for_attempt schema_cls model max_retries (range max_retries) w []
    current_prompt last_error.

(** [es] are the errors of consecutive failed attempts that start in state
    [w] with prompt [p], each prompt being what the loop makes of the one
    before; [w'] and [p'] are the state and the prompt after them. *)
Fixpoint failed_attempts (schema_cls : schema_class json exn T) (model : str)
    (w : service) (p : str) (es : list str) (w' : service) (p' : str) : Prop :=
  match es with
  | [] => w' = w /\ p' = p
  | e :: es' =>
      exists w1, attempt schema_cls model w p = (w1, Invalid e) /\
        failed_attempts schema_cls model w1 (corrective_prompt p e) es' w' p'
  end.

(** The prompts of those attempts. *)
Fixpoint prompts_sent (p : str) (es : list str) : list str :=
  match es with
  | [] => []
  | e :: es' => p :: prompts_sent (corrective_prompt p e) es'
  end.

End AskLLM.

Arguments model_validate {json exn T}.
Arguments final {service T exn}.
Arguments calls {service T exn}.
Arguments outcome {service T exn}.

(** ** [json.loads]

    A model of the decoder of CPython's [json] package (3.11) with its
    default settings, as the accelerated scanner behaves: the document is
    scanned from the left by recursive descent, and the first error ends it
    with a [JSONDecodeError] that carries a message and a position. Floating
    point numbers are kept as the text handed to [float]. Two limits of the
    interpreter end a scan with an exception that is no [JSONDecodeError]:
    the recursion limit, checked whenever the scanner enters an object or an
    array and whenever it calls the class [JSONDecodeError] to raise an
    error of its own, and the limit on the number of digits of an integer,
    checked when the literal is handed to [int]. *)

Module Json.

(** Python values a document decodes to. A [dict] is kept as its items in
    document order; a later item with the same key wins ([dict_get]). *)
#[warnings="-register-all"]
Inductive value : Type :=
| JNull
| JBool (b : bool)
| JInt (n : Z)
| JFloat (text : str)
| JStr (s : str)
| JList (items : list value)
| JDict (pairs : list (str * value)).

(** [d.get(key)] on the dict built from [pairs]. *)
Fixpoint dict_get (key : str) (pairs : list (str * value)) : option value :=
  match pairs with
  | [] => None
  | (k, v) :: pairs' =>
      match dict_get key pairs' with
      | Some v' => Some v'
      | None => if str_eqb k key then Some v else None
      end
  end.

Inductive error_msg : Type :=
| ExpectingValue
| ExtraData
| ExpectingPropertyName
| ExpectingColon
| ExpectingComma
| UnterminatedString
| InvalidControlCharacter
| InvalidEscape
| InvalidUnicodeEscape
| UnexpectedBOM.

Definition msg_text (m : error_msg) : str :=
  match m with
  | ExpectingValue => lit "Expecting value"
  | ExtraData => lit "Extra data"
  | ExpectingPropertyName =>
      lit "Expecting property name enclosed in double quotes"
  | ExpectingColon => lit "Expecting ':' delimiter"
  | ExpectingComma => lit "Expecting ',' delimiter"
  | UnterminatedString => lit "Unterminated string starting at"
  | InvalidControlCharacter => lit "Invalid control character at"
  | InvalidEscape => lit "Invalid \escape"
  | InvalidUnicodeEscape => lit "Invalid \uXXXX escape"
  | UnexpectedBOM => lit "Unexpected UTF-8 BOM (decode using utf-8-sig)"
  end.

(** What ends a scan without a result and without a [JSONDecodeError]. *)
Inductive halt : Type :=
| OutOfFuel          (* the fuel of the model is used up; see [loads] *)
| RecursionLimit     (* [RecursionError]: maximum recursion depth exceeded
                        while decoding a JSON object or array *)
| IntMaxStrDigits.   (* [ValueError]: exceeds the limit for integer string
                        conversion *)

(** The scanner works on what is left of the document. A position is kept as
    the number of characters left at it, so that it does not depend on what
    was read before. *)
Inductive scan (A : Type) : Type :=
| Ok (a : A) (rest : str)
| Err (m : error_msg) (left : nat)
| Halt (h : halt).

Arguments Ok {A}.
Arguments Err {A}.
Arguments Halt {A}.

Definition ch (a : ascii) : char := N_of_ascii a.

Definition BACKSLASH : char := 92%N.

(** [WHITESPACE]: blank, tab, line feed, carriage return. *)
Definition is_ws (c : char) : bool :=
  ((c =? 32) || (c =? 9) || (c =? 10) || (c =? 13))%N.

Fixpoint skip_ws (s : str) : str :=
  match s with
  | c :: s' => if is_ws c then skip_ws s' else s
  | [] => []
  end.

Definition is_digit (c : char) : bool := ((48 <=? c) && (c <=? 57))%N.
Definition is_digit19 (c : char) : bool := ((49 <=? c) && (c <=? 57))%N.

(** The longest front of [s] whose characters satisfy [p], and the rest. *)
Fixpoint span (p : char -> bool) (s : str) : str * str :=
  match s with
  | c :: s' =>
      if p c then let (a, b) := span p s' in (c :: a, b) else ([], s)
  | [] => ([], [])
  end.

Definition hexval (c : char) : option N :=
  (if (48 <=? c) && (c <=? 57) then Some (c - 48)
   else if (65 <=? c) && (c <=? 70) then Some (c - 55)
   else if (97 <=? c) && (c <=? 102) then Some (c - 87)
   else None)%N.

(** Four hexadecimal digits. *)
Definition hex4 (s : str) : option (N * str) :=
  match s with
  | a :: b :: c :: d :: r =>
      match hexval a, hexval b, hexval c, hexval d with
      | Some x, Some y, Some z, Some t =>
          Some (4096 * x + 256 * y + 16 * z + t, r)%N
      | _, _, _, _ => None
      end
  | _ => None
  end.

Definition is_high_surrogate (c : N) : bool := ((55296 <=? c) && (c <=? 56319))%N.
Definition is_low_surrogate (c : N) : bool := ((56320 <=? c) && (c <=? 57343))%N.
Definition join_surrogates (hi lo : N) : N :=
  (65536 + (N.lor (N.shiftl (hi - 55296) 10) (lo - 56320)))%N.

(** The one-character escapes. *)
Definition unescape (c : char) : option char :=
  (if c =? DQUOTE then Some DQUOTE
   else if c =? BACKSLASH then Some BACKSLASH
   else if c =? ch "/" then Some (ch "/")
   else if c =? ch "b" then Some 8
   else if c =? ch "f" then Some 12
   else if c =? ch "n" then Some 10
   else if c =? ch "r" then Some 13
   else if c =? ch "t" then Some 9
   else None)%N.

(** [scanstring]: the text after an opening quote, up to the closing one.
    [begin] is the position of the opening quote; [acc] holds the decoded
    characters in reverse. *)
Fixpoint scanstring (fuel : nat) (begin : nat) (acc : str) (s : str)
  : scan str :=
  match fuel with
  | O => Halt OutOfFuel
  | S fuel =>
      match s with
      | [] => Err UnterminatedString begin
      | c :: s1 =>
          if (c =? DQUOTE)%N then Ok (rev acc) s1
          else if (c =? BACKSLASH)%N then
            match s1 with
            | [] => Err UnterminatedString begin
            | e :: s2 =>
                if (e =? ch "u")%N then
                  if (length s2 <? 5)%nat then Err InvalidUnicodeEscape (length s1)
                  else
                    match hex4 s2 with
                    | None => Err InvalidUnicodeEscape (length s1)
                    | Some (uni, s3) =>
                        if is_high_surrogate uni && (7 <=? length s3)%nat
                           && startswith s3 [BACKSLASH; ch "u"]
                        then
                          match hex4 (skipn 2 s3) with
                          | None => Err InvalidUnicodeEscape (length s3 - 1)
                          | Some (uni2, s4) =>
                              if is_low_surrogate uni2
                              then scanstring fuel begin
                                     (join_surrogates uni uni2 :: acc) s4
                              else scanstring fuel begin (uni :: acc) s3
                          end
                        else scanstring fuel begin (uni :: acc) s3
                    end
                else
                  match unescape e with
                  | Some x => scanstring fuel begin (x :: acc) s2
                  | None => Err InvalidEscape (length s)
                  end
            end
          else if (c <=? 31)%N then Err InvalidControlCharacter (length s)
          else scanstring fuel begin (c :: acc) s1
      end
  end.

Fixpoint digits_value (ds : str) (acc : Z) : Z :=
  match ds with
  | [] => acc
  | d :: ds' => digits_value ds' (10 * acc + (Z.of_N d - 48))
  end.

(** The fraction [(\.\d+)?] and the exponent [([eE][-+]?\d+)?] of a
    number. *)
Definition match_frac (s : str) : option str * str :=
  match s with
  | dot :: d :: s' =>
      if (dot =? ch ".")%N && is_digit d
      then let (ds, r) := span is_digit s' in (Some (dot :: d :: ds), r)
      else (None, s)
  | _ => (None, s)
  end.

Definition match_exp (s : str) : option str * str :=
  match s with
  | e :: s' =>
      if ((e =? ch "e") || (e =? ch "E"))%N then
        let (sign, s'') :=
          match s' with
          | sg :: t =>
              if ((sg =? ch "-") || (sg =? ch "+"))%N then ([sg], t)
              else ([], s')
          | [] => ([], s')
          end in
        match span is_digit s'' with
        | ([], _) => (None, s)
        | (ds, r) => (Some (e :: sign ++ ds), r)
        end
      else (None, s)
  | [] => (None, s)
  end.

Definition number_value (neg : bool) (integer : str) (frac exp : option str)
  : value :=
  let sign := if neg then [ch "-"] else [] in
  match frac, exp with
  | None, None =>
      let n := digits_value integer 0 in JInt (if neg then (- n)%Z else n)
  | _, _ =>
      JFloat (sign ++ integer
                ++ match frac with Some f => f | None => [] end
                ++ match exp with Some e => e | None => [] end)
  end.

(** [NUMBER_RE] at the start of [s]: an optional minus sign, then [0] or a
    digit from 1 to 9 followed by digits, then the optional fraction and the
    optional exponent. *)
Definition after_integer (neg : bool) (integer s3 : str)
  : option (value * str) :=
  let (frac, s4) := match_frac s3 in
  let (exp, s5) := match_exp s4 in
  Some (number_value neg integer frac exp, s5).

Definition match_unsigned (neg : bool) (s1 : str) : option (value * str) :=
  match s1 with
  | [] => None
  | d :: s2 =>
      if is_digit19 d then
        let (ds, s3) := span is_digit s2 in after_integer neg (d :: ds) s3
      else if (d =? ch "0")%N then after_integer neg [d] s2
      else None
  end.

Definition match_number (s : str) : option (value * str) :=
  match s with
  | c :: s' =>
      if (c =? ch "-")%N then match_unsigned true s'
      else match_unsigned false s
  | [] => None
  end.

(** The named constants. *)
Definition match_constant (s : str) : option (value * str) :=
  match drop_prefix (lit "null") s with
  | Some r => Some (JNull, r)
  | None =>
  match drop_prefix (lit "true") s with
  | Some r => Some (JBool true, r)
  | None =>
  match drop_prefix (lit "false") s with
  | Some r => Some (JBool false, r)
  | None =>
  match drop_prefix (lit "NaN") s with
  | Some r => Some (JFloat (lit "NaN"), r)
  | None =>
  match drop_prefix (lit "Infinity") s with
  | Some r => Some (JFloat (lit "Infinity"), r)
  | None =>
  match drop_prefix (lit "-Infinity") s with
  | Some r => Some (JFloat (lit "-Infinity"), r)
  | None => None
  end end end end end end.

(** The digits of the literal of an [int]. The literal has no leading zero,
    so they are the decimal digits of the value. *)
Definition int_digits (n : Z) : nat := length (str_of_Z (Z.abs n)).

(** [sys.int_info.str_digits_check_threshold]: shorter literals are never
    checked. *)
Definition STR_DIGITS_CHECK_THRESHOLD : nat := 640.

Section Scanner.

(** [sys.get_int_max_str_digits()]: 4300 unless it was set, 0 for no
    limit. *)
Variable int_max_str_digits : nat.

(** [int(numstr)] raises [ValueError]. *)
Definition int_too_long (v : value) : bool :=
  match v with
  | JInt n =>
      (STR_DIGITS_CHECK_THRESHOLD <? int_digits n)%nat
      && (0 <? int_max_str_digits)%nat
      && (int_max_str_digits <? int_digits n)%nat
  | _ => false
  end.

(** The calls that it takes the scanner to make a [JSONDecodeError]: the
    class is called from inside the object or array the scanner is in, and
    its [__init__] is Python code. In CPython 3.11 they are three and are
    counted with the objects and arrays entered; where Python frames are
    counted apart, as from 3.12 on, none. *)
Variable error_frames : nat.

(** [raise_errmsg]: with [depth] calls left, the error is raised if
    [error_frames] of them are enough, and the call of the class ends in a
    [RecursionError] if not. *)
Definition raise_errmsg (depth : nat) (m : error_msg) (left : nat)
  : scan value :=
  if (error_frames <=? depth)%nat then Err m left else Halt RecursionLimit.

(** [scan_once] with the object and array loops it calls. Where the
    scanner raises [StopIteration(idx)], the decoder reports "Expecting
    value" at [idx] once the scanner has returned; that is done on the spot
    here. The other errors are raised by the scanner where it stands
    ([raise_errmsg]). [depth] is the number of calls the recursion limit
    leaves: entering an object or an array takes one, and the check
    ([Py_EnterRecursiveCall]) is made at the opening bracket, before
    anything of the object or array is read. *)
Fixpoint scan_once (depth fuel : nat) (s : str) : scan value :=
  match fuel with
  | O => Halt OutOfFuel
  | S fuel =>
      match s with
      | [] => Err ExpectingValue 0
      | c :: s1 =>
          if (c =? DQUOTE)%N then
            match scanstring (length s) (length s) [] s1 with
            | Ok x r => Ok (JStr x) r
            | Err m n => raise_errmsg depth m n
            | Halt h => Halt h
            end
          else if (c =? ch "{")%N then
            match depth with
            | O => Halt RecursionLimit
            | S depth =>
                match skip_ws s1 with
                | [] => raise_errmsg depth ExpectingPropertyName 0
                | c1 :: s2 =>
                    if (c1 =? ch "}")%N then Ok (JDict []) s2
                    else object_items depth fuel [] (c1 :: s2)
                end
            end
          else if (c =? ch "[")%N then
            match depth with
            | O => Halt RecursionLimit
            | S depth =>
                match skip_ws s1 with
                | [] => Err ExpectingValue 0
                | c1 :: s2 =>
                    if (c1 =? ch "]")%N then Ok (JList []) s2
                    else array_items depth fuel [] (c1 :: s2)
                end
            end
          else
            match match_constant s with
            | Some (v, r) => Ok v r
            | None =>
                match match_number s with
                | Some (v, r) =>
                    if int_too_long v then Halt IntMaxStrDigits else Ok v r
                | None => Err ExpectingValue (length s)
                end
            end
      end
  end

(** The loop of the array parser, at the start of an item. *)
with array_items (depth fuel : nat) (acc : list value) (s : str)
  : scan value :=
  match fuel with
  | O => Halt OutOfFuel
  | S fuel =>
      match scan_once depth fuel s with
      | Ok v r =>
          match skip_ws r with
          | [] => raise_errmsg depth ExpectingComma 0
          | c :: r1 =>
              if (c =? ch "]")%N then Ok (JList (rev (v :: acc))) r1
              else if (c =? ch ",")%N
                   then array_items depth fuel (v :: acc) (skip_ws r1)
              else raise_errmsg depth ExpectingComma (length (c :: r1))
          end
      | Err m n => Err m n
      | Halt h => Halt h
      end
  end

(** The loop of the object parser, at the start of a key. *)
with object_items (depth fuel : nat) (acc : list (str * value)) (s : str)
  : scan value :=
  match fuel with
  | O => Halt OutOfFuel
  | S fuel =>
      match s with
      | [] => raise_errmsg depth ExpectingPropertyName 0
      | q :: s1 =>
          if negb (q =? DQUOTE)%N
          then raise_errmsg depth ExpectingPropertyName (length s)
          else
            match scanstring (length s) (length s) [] s1 with
            | Ok key r =>
                match skip_ws r with
                | [] => raise_errmsg depth ExpectingColon 0
                | c :: r1 =>
                    if negb (c =? ch ":")%N
                    then raise_errmsg depth ExpectingColon (length (c :: r1))
                    else
                      match scan_once depth fuel (skip_ws r1) with
                      | Ok v r2 =>
                          match skip_ws r2 with
                          | [] => raise_errmsg depth ExpectingComma 0
                          | c2 :: r3 =>
                              if (c2 =? ch "}")%N
                              then Ok (JDict (rev ((key, v) :: acc))) r3
                              else if (c2 =? ch ",")%N
                              then object_items depth fuel ((key, v) :: acc)
                                     (skip_ws r3)
                              else raise_errmsg depth ExpectingComma
                                     (length (c2 :: r3))
                          end
                      | Err m n => Err m n
                      | Halt h => Halt h
                      end
                end
            | Err m n => raise_errmsg depth m n
            | Halt h => Halt h
            end
      end
  end.

End Scanner.

(** The line, the column and the offset of the position with [left]
    characters of [doc] after it. *)
Fixpoint column (s : str) (acc : nat) : nat :=
  match s with
  | [] => acc
  | c :: s' => if (c =? NL)%N then column s' 1 else column s' (S acc)
  end.

Definition error_text (doc : str) (m : error_msg) (left : nat) : str :=
  let pos := length doc - left in
  let before := firstn pos doc in
  let lineno := S (count_occ N.eq_dec before NL) in
  let colno := column before 1 in
  msg_text m ++ lit ": line " ++ str_of_nat lineno ++ lit " column "
    ++ str_of_nat colno ++ lit " (char " ++ str_of_nat pos ++ lit ")".

Definition BOM : char := 65279%N.





(** The state of the interpreter as far as [json.loads] depends on it, and
    how its exceptions are written in [exn]. *)
Record interpreter (exn : Type) : Type :=
  { recursion_remaining : nat;
      (* the calls the recursion limit leaves where the scanner starts,
         beyond those it takes to raise an error there *)
    error_frames : nat;
      (* the calls it takes the scanner to make a [JSONDecodeError] *)
    max_str_digits : nat;          (* [sys.get_int_max_str_digits()] *)
    raise : halt -> exn }.

(** [json.loads(s)] for a [str]. Every value and every item of a list or
    dict takes at least one character of the document, so the fuel given
    here is never used up ([loads_raises]). *)
Definition loads (exn : Type) (py : interpreter exn) (s : str)
  : decode_result value exn :=
  if startswith s [BOM] then JSONDecodeError (error_text s UnexpectedBOM (length s))
  else
    match scan_once (max_str_digits py) (error_frames py)
            (recursion_remaining py + error_frames py)
            (S (2 * length s)) (skip_ws s) with
    | Ok v r =>
        match skip_ws r with
        | [] => Parsed v
        | r' => JSONDecodeError (error_text s ExtraData (length r'))
        end
    | Err m n => JSONDecodeError (error_text s m n)
    | Halt h => DecodeRaises (raise py h)
    end.

Arguments recursion_remaining {exn}.
Arguments error_frames {exn}.
Arguments max_str_digits {exn}.
Arguments raise {exn}.

End Json.

(** ** The schema classes ([schemas.py])

    [model_validate] of a pydantic model on the value [json.loads] returned:
    the input must be a dict; the fields are looked up by name and validated
    in the order of their declaration; keys that are no fields are ignored;
    all errors are collected and reported together in a [ValidationError]. *)

Module Schemas.
Import Json.

Record Citation : Type := { source_id : str; quote : str }.

Record QAResponse : Type := { answer : str; citations : list Citation }.

(** One item of the location of an error: a field name or a list index. *)
Inductive loc_item : Type :=
| Key (name : str)
| Index (i : nat).

Inductive error_type : Type :=
| missing                       (* a required field is absent *)
| string_type                   (* not a [str] *)
| list_type                     (* not a list *)
| model_type (class_name : str) (* not a dict *).

Record line_error : Type :=
  { loc : list loc_item; type_ : error_type; input : value }.

Definition validated (A : Type) : Type := (list line_error + A)%type.

Definition errors_of (A : Type) (r : validated A) : list line_error :=
  match r with inl errs => errs | inr _ => [] end.

(** Errors of a field or an item are located below it. *)
Definition below (item : loc_item) (errs : list line_error)
  : list line_error :=
  List.map (fun e => {| loc := item :: loc e; type_ := type_ e;
                        input := input e |}) errs.

(** [str] *)
Definition validate_str (v : value) : validated str :=
  match v with
  | JStr s => inr s
  | _ => inl [{| loc := []; type_ := string_type; input := v |}]
  end.

(** A field declared with [Field(...)]: required. *)
Definition required_field (A : Type) (name : str)
    (validate : value -> validated A) (data : value)
    (pairs : list (str * value)) : validated A :=
  match dict_get name pairs with
  | None => inl [{| loc := [Key name]; type_ := missing; input := data |}]
  | Some v =>
      match validate v with
      | inl errs => inl (below (Key name) errs)
      | inr a => inr a
      end
  end.

(** A field declared with a default. *)
Definition field_with_default (A : Type) (name : str)
    (validate : value -> validated A) (default : A)
    (pairs : list (str * value)) : validated A :=
  match dict_get name pairs with
  | None => inr default
  | Some v =>
      match validate v with
      | inl errs => inl (below (Key name) errs)
      | inr a => inr a
      end
  end.

(** The items of a [List[...]], from index [i] on. *)
Fixpoint validate_items (A : Type) (validate : value -> validated A)
    (i : nat) (items : list value) : validated (list A) :=
  match items with
  | [] => inr []
  | v :: items' =>
      match validate v, validate_items validate (S i) items' with
      | inr a, inr l => inr (a :: l)
      | r1, r2 => inl (below (Index i) (errors_of r1) ++ errors_of r2)
      end
  end.

Definition validate_list (A : Type) (validate : value -> validated A)
    (v : value) : validated (list A) :=
  match v with
  | JList items => validate_items validate 0 items
  | _ => inl [{| loc := []; type_ := list_type; input := v |}]
  end.

Definition validate_Citation (data : value) : validated Citation :=
  match data with
  | JDict pairs =>
      match required_field (lit "source_id") validate_str data pairs,
            required_field (lit "quote") validate_str data pairs with
      | inr s, inr q => inr {| source_id := s; quote := q |}
      | r1, r2 => inl (errors_of r1 ++ errors_of r2)
      end
  | _ => inl [{| loc := []; type_ := model_type (lit "Citation");
                 input := data |}]
  end.

Definition validate_QAResponse (data : value) : validated QAResponse :=
  match data with
  | JDict pairs =>
      match required_field (lit "answer") validate_str data pairs,
            field_with_default (lit "citations")
              (validate_list validate_Citation) [] pairs with
      | inr a, inr c => inr {| answer := a; citations := c |}
      | r1, r2 => inl (errors_of r1 ++ errors_of r2)
      end
  | _ => inl [{| loc := []; type_ := model_type (lit "QAResponse");
                 input := data |}]
  end.

(** *** [str(e)] of a [ValidationError] *)

Fixpoint join (sep : str) (l : list str) : str :=
  match l with
  | [] => []
  | [x] => x
  | x :: l' => x ++ sep ++ join sep l'
  end.

Definition str_loc_item (i : loc_item) : str :=
  match i with
  | Key name => name
  | Index n => str_of_nat n
  end.

Definition message (t : error_type) : str :=
  match t with
  | missing => lit "Field required"
  | string_type => lit "Input should be a valid string"
  | list_type => lit "Input should be a valid list"
  | model_type c => lit "Input should be a valid dictionary or instance of " ++ c
  end.

Definition type_string (t : error_type) : str :=
  match t with
  | missing => lit "missing"
  | string_type => lit "string_type"
  | list_type => lit "list_type"
  | model_type _ => lit "model_type"
  end.

Section Display.

(** The end of an error's entry: the [input_value=] and [input_type=] items
    with the closing bracket, and the line with the link to the
    documentation. It depends on [repr] of the input and on the release of
    pydantic, and is left open. *)
Variable details : line_error -> str.

Definition str_line_error (e : line_error) : str :=
  match loc e with
  | [] => []
  | l => join (lit ".") (List.map str_loc_item l) ++ [NL]
  end
  ++ lit "  " ++ message (type_ e) ++ lit " [type=" ++ type_string (type_ e)
  ++ details e.

Definition str_ValidationError (title : str) (errs : list line_error) : str :=
  str_of_nat (length errs) ++ lit " validation error"
  ++ (if (length errs =? 1)%nat then [] else lit "s")
  ++ lit " for " ++ title ++ [NL]
  ++ join [NL] (List.map str_line_error errs).

Variable exn : Type.

(** The class object [Citation]. *)
Definition Citation_cls : schema_class value exn Citation :=
  {| model_validate := fun data =>
       match validate_Citation data with
       | inr v => Valid v
       | inl errs =>
           ValidationError (str_ValidationError (lit "Citation") errs)
       end |}.

(** The class object [QAResponse]. *)
Definition QAResponse_cls : schema_class value exn QAResponse :=
  {| model_validate := fun data =>
       match validate_QAResponse data with
       | inr v => Valid v
       | inl errs =>
           ValidationError (str_ValidationError (lit "QAResponse") errs)
       end |}.

End Display.

End Schemas.

(** ** A completion service for examples

    A service that replays a script: each call takes the next entry, an
    answer or a fault, whatever the prompt; past the end of the script it
    refuses the connection. *)

Inductive py_exception : Type :=
| RecursionError
| ConnectionError (msg : str)
| ResponseError (msg : str)
| IntValueError.     (* the [ValueError] of [int] on too long a literal *)

(** An interpreter for the examples, CPython 3.11: the limit on the digits
    of an integer is the default one, and the calls left are what the
    default recursion limit of 1000 leaves to a call of [json.loads] a few
    frames deep, 993 at the start of the scanner. *)
Definition cpython : Json.interpreter py_exception :=
  {| Json.recursion_remaining := 990;
     Json.error_frames := 3;
     Json.max_str_digits := 4300;
     Json.raise := fun h =>
       match h with
       | Json.IntMaxStrDigits => IntValueError
       | _ => RecursionError
       end |}.

Definition script : Type := list (py_exception + str).

Definition scripted_chat (w : script) (model : str) (messages : list message)
  : script * (py_exception + str) :=
  match w with
  | [] => ([], inl (ConnectionError (lit "Failed to connect to Ollama")))
  | r :: w' => (w', r)
  end.

(** A text of the source with ['] standing for the double quote. *)
Definition quoted (s : string) : str :=
  List.map (fun c => if (c =? 39)%N then DQUOTE else c) (lit s).

(** The entry of an error as printed by the examples: the type only. *)
Definition plain_details (e : Schemas.line_error) : str := lit "]".

(** [ask_llm_for_json(prompt, QAResponse, model, max_retries)] against a
    scripted service. *)
Definition ask_scripted (prompt model : str) (max_retries : Z) (w : script)
  : run script Schemas.QAResponse py_exception :=
  ask_llm_for_json scripted_chat (Json.loads cpython) prompt
    (Schemas.QAResponse_cls plain_details py_exception) model max_retries w.

(** Values the examples share. *)
Definition example_prompt : str := lit "What was the revenue in Q3? Return ONLY JSON.".

Definition malformed_response : str := lit "Sure, here is the answer.".

Definition incomplete_response : str :=
  quoted "{'citations': [{'source_id': 'doc_001', 'quote': 'revenue of $50M in Q3'}]}".

Definition good_payload : str :=
  quoted "{'answer':'Revenue was $50M','citations':[{'source_id':'doc_001','quote':'revenue of $50M in Q3'}]}".

Definition good_response : str := lit "```json " ++ good_payload ++ lit "```".

Definition good_value : Schemas.QAResponse :=
  {| Schemas.answer := lit "Revenue was $50M";
     Schemas.citations :=
       [{| Schemas.source_id := lit "doc_001";
           Schemas.quote := lit "revenue of $50M in Q3" |}] |}.

(** What the loop records for [malformed_response] and for
    [incomplete_response]. *)
Definition malformed_error : str :=
  lit "JSON decode error: Expecting value: line 1 column 1 (char 0)".

Definition incomplete_error : str :=
  lit "Schema validation error: 1 validation error for QAResponse" ++ [NL]
  ++ lit "answer" ++ [NL] ++ lit "  Field required [type=missing]".







(** ** [model_dump] and what a schema class accepts ([schemas.py]) *)

(** [c.model_dump()] of a [Citation]: the dict of its fields, in the order
    of their declaration. *)
Definition Citation_model_dump (c : Schemas.Citation) : Json.value :=
  Json.JDict [(lit "source_id", Json.JStr (Schemas.source_id c));
              (lit "quote", Json.JStr (Schemas.quote c))].

(** [r.model_dump()] of a [QAResponse]; the citations are dumped in turn. *)
Definition QAResponse_model_dump (r : Schemas.QAResponse) : Json.value :=
  Json.JDict
    [(lit "answer", Json.JStr (Schemas.answer r));
     (lit "citations",
      Json.JList (List.map Citation_model_dump (Schemas.citations r)))].

(** The declaration of [Citation] read as a relation: [item] is a dict whose
    keys [source_id] and [quote] hold the strings of [c]. *)
Definition is_Citation (item : Json.value) (c : Schemas.Citation) : Prop :=
  exists pairs,
    item = Json.JDict pairs /\
    Json.dict_get (lit "source_id") pairs = Some (Json.JStr (Schemas.source_id c)) /\
    Json.dict_get (lit "quote") pairs = Some (Json.JStr (Schemas.quote c)).

(** The declaration of [QAResponse] read as a relation: [data] is a dict
    whose key [answer] holds the string of [r], and whose key [citations],
    when it is there, holds a list of citations; without the key the list
    is the empty one of [default_factory]. *)
Definition is_QAResponse (data : Json.value) (r : Schemas.QAResponse) : Prop :=
  exists pairs,
    data = Json.JDict pairs /\
    Json.dict_get (lit "answer") pairs = Some (Json.JStr (Schemas.answer r)) /\
    match Json.dict_get (lit "citations") pairs with
    | None => Schemas.citations r = []
    | Some (Json.JList items) => Forall2 is_Citation items (Schemas.citations r)
    | Some _ => False
    end.

(** The two labels under which the loop records an error. *)
Definition labelled (e : str) : Prop :=
  (exists d, e = lit "JSON decode error: " ++ d) \/
  (exists d, e = lit "Schema validation error: " ++ d).

(** ** The command line ([json_runner.py], [main]) *)

(** A text of the source with [~] standing for the double quote. *)
Definition tilde (s : string) : str :=
  List.map (fun c => if (c =? 126)%N then DQUOTE else c) (lit s).

(** The lines of a text, joined by line feeds. *)
Fixpoint unlines (l : list str) : str :=
  match l with
  | [] => []
  | [x] => x
  | x :: l' => x ++ [NL] ++ unlines l'
  end.

Definition SYSTEM_INSTRUCTIONS : str :=
  unlines
    [ lit "You are a financial analysis assistant.";
      lit "Read the given context and answer the user's question.";
      lit "You MUST respond ONLY as a JSON object matching this schema:";
      lit "{";
      tilde "  ~answer~: ~string~,";
      tilde "  ~citations~: [";
      lit "    {";
      tilde "      ~source_id~: ~string~,";
      tilde "      ~quote~: ~string~";
      lit "    }";
      lit "  ]";
      lit "}";
      lit "- 'answer' should be concise but complete.";
      lit "- 'citations' should include at least 1 exact quote from the context.";
      lit "Return ONLY valid JSON. No markdown, no explanation, no code block." ].

(** The context and the question of the demonstration (lines 94-99). *)
Definition DEMO_CONTEXT : str :=
  [NL] ++
  unlines
    [ lit "Document A (id: doc_001): The company reported revenue of $50M in Q3, up 15% YoY.";
      lit "Document B (id: doc_002): Operating margin improved to 22% due to cost savings.";
      tilde "Document C (id: doc_003): CEO stated: ~We expect strong growth in fiscal 2025.~" ]
  ++ [NL].

Definition DEMO_QUESTION : str := lit "What was the revenue and growth in Q3?".

(** The f-string of lines 107-115. *)
Definition user_prompt (context question : str) : str :=
  SYSTEM_INSTRUCTIONS ++ [NL; NL] ++
  lit "Context:" ++ [NL] ++
  context ++ [NL; NL] ++
  lit "Question:" ++ [NL] ++
  question ++ [NL; NL] ++
  lit "Return ONLY JSON.".

Module Cli.

(** What [parser.parse_args()] returns: [context] and [question] are [None]
    when the option is not given, [model] has a default, [demo] is a flag. *)
Record Namespace : Type :=
  { context : option str; question : option str; model : str; demo : bool }.

(** The truth value of an optional string: [None] and the empty string are
    false. *)
Definition truthy (o : option str) : bool :=
  match o with
  | Some (_ :: _) => true
  | _ => false
  end.

(** [o or ""] *)
Definition or_empty (o : option str) : str :=
  match o with
  | Some (c :: s) => c :: s
  | _ => []
  end.

(** Lines 93-102: the context and the question the prompt is made of. *)
Definition inputs (args : Namespace) : str * str :=
  if demo args || (negb (truthy (context args)) && negb (truthy (question args)))
  then (DEMO_CONTEXT, DEMO_QUESTION)
  else (or_empty (context args), or_empty (question args)).

(** How [main] ends. *)
Inductive ending (exn : Type) : Type :=
| Printed (stdout : str)                (* the line written by [print] *)
| SystemExit (status : Z) (msg : str)   (* [parser.error(msg)] *)
| AttributeError                        (* [None] has no [model_dump_json] *)
| Raised (e : exception exn)            (* raised by [ask_llm_for_json] *)
| LastLineRaises (x : exn).             (* raised by [model_dump_json] or
                                           by [print] in the last line *)

Arguments Printed {exn}.
Arguments SystemExit {exn}.
Arguments AttributeError {exn}.
Arguments Raised {exn}.
Arguments LastLineRaises {exn}.

(** A finished run of [main]: the state the service is left in, the prompts
    sent to it, and the end. *)
Record main_run (service exn : Type) : Type :=
  { state : service; prompts : list str; end_ : ending exn }.

Section Main.

Variables service exn : Type.
Variable ollama_chat : service -> str -> list message -> service * (exn + str).

(** The interpreter [json.loads] runs in. *)
Variable py : Json.interpreter exn.

(** The end of an entry of a [ValidationError], see [Schemas]. *)
Variable details : Schemas.line_error -> str.

(** [result.model_dump_json(indent=...)], the serialiser of pydantic: the
    text, or the exception it raises on a string that has no UTF-8
    encoding. *)
Variable model_dump_json : Schemas.QAResponse -> Z -> exn + str.

(** [print(text)]: the text and a line feed go to the standard output, or
    the stream raises, as it does on a character its encoding lacks. *)
Variable print : str -> option exn.

Definition main (args : Namespace) (w : service) : main_run service exn :=
  let (context, question) := inputs args in
  match question with
  | [] =>
      {| state := w; prompts := [];
         end_ := SystemExit 2 (lit "Provide --question or use --demo") |}
  | _ :: _ =>
      let r :=
        ask_llm_for_json ollama_chat (Json.loads py)
          (user_prompt context question)
          (Schemas.QAResponse_cls details exn) (model args) MAX_RETRIES w in
      {| state := final r; prompts := calls r;
         end_ :=
           match outcome r with
           | Return result =>
               match model_dump_json result 2 with
               | inl x => LastLineRaises x
               | inr text =>
                   match print text with
                   | Some x => LastLineRaises x
                   | None => Printed (text ++ [NL])
                   end
               end
           | ReturnNone => AttributeError
           | Raise e => Raised e
           end |}
  end.

End Main.

Arguments state {service exn}.
Arguments prompts {service exn}.
Arguments end_ {service exn}.

End Cli.

(** The serialiser of the examples: the answer alone. *)
Definition answer_only (r : Schemas.QAResponse) (indent : Z)
  : py_exception + str :=
  inr (Schemas.answer r).

(** A standard output that takes every text. *)
Definition print_any (text : str) : option py_exception := None.

(** [main] against a scripted service. *)
Definition main_scripted (args : Cli.Namespace) (w : script)
  : Cli.main_run script py_exception :=
  Cli.main scripted_chat cpython plain_details answer_only print_any args w.

(** A decoder for examples that gives up on every text, as [json.loads]
    does on a document nested beyond the recursion limit. *)
Definition loads_at_limit (s : str) : decode_result Json.value py_exception :=
  DecodeRaises RecursionError.

(** ** Facts about strings *)

Unset Implicit Arguments.

Section StrFacts.

Lemma drop_prefix_app (p r : str) : drop_prefix p (p ++ r) = Some r.
Proof.
  induction p as [|a p IH]; simpl; [reflexivity|].
  now rewrite N.eqb_refl.
Qed.

Lemma drop_prefix_Some (p s r : str) :
  drop_prefix p s = Some r -> s = p ++ r.
Proof.
  revert s; induction p as [|a p IH]; intros s H; simpl in *.
  - now inversion H.
  - destruct s as [|b s]; [discriminate|].
    destruct (N.eqb_spec a b) as [->|]; [|discriminate].
    now rewrite (IH _ H).
Qed.

Lemma startswith_app (p r : str) : startswith (p ++ r) p = true.
Proof. unfold startswith. now rewrite drop_prefix_app. Qed.

Lemma startswith_true (s p : str) :
  startswith s p = true -> exists r, s = p ++ r.
Proof.
  unfold startswith. destruct (drop_prefix p s) as [r|] eqn:E; [|discriminate].
  intros _. exists r. now apply drop_prefix_Some.
Qed.

Lemma contains_unfold (needle s : str) :
  contains needle s =
  startswith s needle
  || match s with [] => false | _ :: s' => contains needle s' end.
Proof. destruct s; reflexivity. Qed.

Lemma contains_app (needle a b : str) :
  contains needle (a ++ needle ++ b) = true.
Proof.
  induction a as [|c a IH].
  - simpl app. now rewrite contains_unfold, startswith_app.
  - simpl. rewrite IH. apply orb_true_r.
Qed.

Lemma contains_true (needle s : str) :
  contains needle s = true -> exists a b, s = a ++ needle ++ b.
Proof.
  induction s as [|c s IH]; simpl; intros H.
  - rewrite orb_false_r in H. apply startswith_true in H as [r ->].
    now exists [], r.
  - apply orb_true_iff in H as [H|H].
    + apply startswith_true in H as [r ->]. now exists [], r.
    + destruct (IH H) as (a & b & ->). now exists (c :: a), b.
Qed.

Lemma contains_false (needle s a b : str) :
  contains needle s = false -> s <> a ++ needle ++ b.
Proof.
  intros H ->. rewrite contains_app in H. discriminate.
Qed.

(** A text without the shorter needle has none of its extensions. *)
Lemma contains_longer (n1 n2 s : str) :
  contains n1 s = false -> contains (n1 ++ n2) s = false.
Proof.
  intros H. destruct (contains (n1 ++ n2) s) eqn:E; [|reflexivity].
  apply contains_true in E as (a & b & ->).
  rewrite <- app_assoc, contains_app in H. discriminate.
Qed.

Lemma contains_substring (needle a s b : str) :
  contains needle (a ++ s ++ b) = false -> contains needle s = false.
Proof.
  intros H. destruct (contains needle s) eqn:E; [|reflexivity].
  apply contains_true in E as (x & y & ->).
  replace (a ++ (x ++ needle ++ y) ++ b)
    with ((a ++ x) ++ needle ++ (y ++ b)) in H
    by (now rewrite <- !app_assoc).
  rewrite contains_app in H. discriminate.
Qed.

(** [find] returns the first occurrence. *)
Definition first_at (needle s : str) (i : nat) : Prop :=
  (exists a b, s = a ++ needle ++ b /\ length a = i) /\
  (forall x y, s = x ++ needle ++ y -> i <= length x).

Lemma find_first_at (needle s : str) (i : nat) :
  find needle s = Some i -> first_at needle s i.
Proof.
  revert i; induction s as [|c s IH]; intros i; simpl.
  - destruct (startswith [] needle) eqn:E; [|discriminate].
    intros [= <-]. apply startswith_true in E as [r E]. split.
    + exists [], r. now split.
    + intros; lia.
  - destruct (startswith (c :: s) needle) eqn:E.
    + intros [= <-]. apply startswith_true in E as [r E]. split.
      * exists [], r. now split.
      * intros; lia.
    + destruct (find needle s) as [j|] eqn:F; [|discriminate].
      intros [= <-]. destruct (IH j eq_refl) as [(a & b & -> & <-) Hmin].
      split.
      * exists (c :: a), b. now split.
      * intros [|c' x] y Hxy.
        -- simpl in Hxy. rewrite Hxy, startswith_app in E. discriminate.
        -- simpl in Hxy. injection Hxy as -> Hxy.
           apply Hmin in Hxy. simpl. lia.
Qed.

(** [find] finds the needle when there is one, at or before any given
    occurrence. *)
Lemma find_occurrence (needle a b : str) :
  exists i, find needle (a ++ needle ++ b) = Some i /\ i <= length a.
Proof.
  induction a as [|c a (i & Hi & Hle)].
  - exists 0. cbn [app]. split; [|apply Nat.le_0_l].
    destruct (needle ++ b) eqn:E; simpl; rewrite <- E, startswith_app;
      reflexivity.
  - cbn [app find].
    destruct (startswith (c :: a ++ needle ++ b) needle).
    + exists 0. split; [reflexivity|apply Nat.le_0_l].
    + exists (S i). rewrite Hi. split; [reflexivity|simpl; lia].
Qed.

Lemma isspace_backtick : isspace BACKTICK = false.
Proof. reflexivity. Qed.

(** [strip] keeps a contiguous part of the text. *)
Lemma lstrip_suffix (s : str) :
  exists w, s = w ++ lstrip s /\ forallb isspace w = true.
Proof.
  induction s as [|c s (w & E & Hw)]; simpl.
  - now exists [].
  - destruct (isspace c) eqn:Hc.
    + exists (c :: w). simpl. rewrite Hc, Hw. split; [now f_equal|reflexivity].
    + now exists [].
Qed.

Lemma rstrip_prefix (s : str) :
  exists w, s = rstrip s ++ w /\ forallb isspace w = true.
Proof.
  induction s as [|c s (w & E & Hw)]; simpl.
  - now exists [].
  - destruct (rstrip s) as [|d r] eqn:R.
    + destruct (isspace c) eqn:Hc.
      * exists (c :: w). simpl in *. rewrite Hc, Hw. subst s. now split.
      * exists w. simpl in *. subst s. now split.
    + exists w. simpl in *. split; [now f_equal|assumption].
Qed.

Lemma strip_substring (s : str) :
  exists w1 w2, s = w1 ++ strip s ++ w2 /\
    forallb isspace w1 = true /\ forallb isspace w2 = true.
Proof.
  destruct (lstrip_suffix s) as (w1 & E1 & H1).
  destruct (rstrip_prefix (lstrip s)) as (w2 & E2 & H2).
  exists w1, w2. unfold strip. now rewrite <- E2.
Qed.

Lemma contains_strip (needle s : str) :
  contains needle s = false -> contains needle (strip s) = false.
Proof.
  destruct (strip_substring s) as (w1 & w2 & E & _).
  intros H. rewrite E in H. now apply contains_substring in H.
Qed.

Lemma lstrip_nonspace (c : char) (s : str) :
  isspace c = false -> lstrip (c :: s) = c :: s.
Proof. intros H. simpl. now rewrite H. Qed.

Lemma lstrip_idem (s : str) : lstrip (lstrip s) = lstrip s.
Proof.
  induction s as [|c s IH]; simpl; [reflexivity|].
  destruct (isspace c) eqn:Hc; [assumption|]. simpl. now rewrite Hc.
Qed.

Lemma rstrip_idem (s : str) : rstrip (rstrip s) = rstrip s.
Proof.
  induction s as [|c s IH]; simpl; [reflexivity|].
  destruct (rstrip s) as [|d r] eqn:R.
  - destruct (isspace c) eqn:Hc; simpl; [reflexivity|]. now rewrite Hc.
  - change (rstrip (c :: d :: r)) with
      (match rstrip (d :: r) with
       | [] => if isspace c then [] else [c]
       | x => c :: x
       end).
    now rewrite IH.
Qed.

(** [rstrip] does not touch the front of a text that survives it. *)
Lemma lstrip_rstrip (s : str) : lstrip (rstrip s) = rstrip (lstrip s).
Proof.
  induction s as [|c s IH]; simpl; [reflexivity|].
  destruct (isspace c) eqn:Hc.
  - rewrite <- IH. destruct (rstrip s) as [|d r] eqn:R; simpl;
      rewrite ?Hc; reflexivity.
  - change (rstrip (c :: s)) with
      (match rstrip s with
       | [] => if isspace c then [] else [c]
       | x => c :: x
       end).
    destruct (rstrip s) as [|d r] eqn:R; simpl; rewrite ?Hc; reflexivity.
Qed.

Lemma strip_idem (s : str) : strip (strip s) = strip s.
Proof.
  unfold strip. rewrite (lstrip_rstrip (lstrip s)), lstrip_idem.
  apply rstrip_idem.
Qed.

End StrFacts.

(** ** Facts about the matcher *)

Section ReFacts.
Import Re.

Lemma space_or_not_true (c : char) : space_or_not c = true.
Proof. unfold space_or_not. apply orb_negb_r. Qed.

Lemma star_greedy_ext (A : Type) (cls : char -> bool) (k k' : str -> option A) :
  (forall s, k s = k' s) ->
  forall s, star_greedy cls s k = star_greedy cls s k'.
Proof.
  intros E s; induction s as [|c s IH]; simpl; [apply E|].
  rewrite IH, E. reflexivity.
Qed.

Lemma star_lazy_ext (A : Type) (cls : char -> bool) (k k' : str -> option A) :
  (forall s, k s = k' s) ->
  forall s, star_lazy cls s k = star_lazy cls s k'.
Proof.
  intros E s; induction s as [|c s IH]; simpl; rewrite E; [reflexivity|].
  now rewrite IH.
Qed.

(** A greedy star hands some suffix to its continuation. *)
Lemma star_greedy_Some (A : Type) (cls : char -> bool) (k : str -> option A)
    (s : str) (r : A) :
  star_greedy cls s k = Some r -> exists a b, s = a ++ b /\ k b = Some r.
Proof.
  induction s as [|c s IH]; simpl; intros H.
  - now exists [], [].
  - destruct (cls c).
    + destruct (star_greedy cls s k) as [x|] eqn:E.
      * destruct (IH H) as (a & b & -> & Hk).
        now exists (c :: a), b.
      * now exists [], (c :: s).
    + now exists [], (c :: s).
Qed.

(** The first alternative of [\s*] skips all the leading whitespace. *)
Lemma star_greedy_lstrip (A : Type) (k : str -> option A) (s : str) (r : A) :
  k (lstrip s) = Some r -> star_greedy isspace s k = Some r.
Proof.
  induction s as [|c s IH]; simpl; [trivial|].
  destruct (isspace c); intros H; [|assumption].
  now rewrite (IH H).
Qed.

(** A non-greedy [[\s\S]*?] stops at the first split its continuation
    accepts. *)
Lemma star_lazy_Some (A : Type) (k : str -> option A) (s : str) (r : A) :
  star_lazy space_or_not s k = Some r ->
  exists a b, s = a ++ b /\ k b = Some r /\
    forall a1 a2, a = a1 ++ a2 -> a2 <> [] -> k (a2 ++ b) = None.
Proof.
  induction s as [|c s IH]; simpl.
  - destruct (k []) eqn:E; [|discriminate]. intros [= ->].
    exists [], []. repeat split; trivial.
    intros a1 a2 Ha. symmetry in Ha. apply app_eq_nil in Ha as [_ ->].
    congruence.
  - destruct (k (c :: s)) eqn:E.
    + intros [= ->]. exists [], (c :: s). repeat split; trivial.
      intros a1 a2 Ha. symmetry in Ha. apply app_eq_nil in Ha as [_ ->].
      congruence.
    + rewrite space_or_not_true. intros H.
      destruct (IH H) as (a & b & -> & Hk & Hmin).
      exists (c :: a), b. repeat split; trivial.
      intros [|c' a1] a2 Ha Hne; simpl in Ha.
      * now subst a2.
      * injection Ha as -> Ha. now apply (Hmin a1).
Qed.

Lemma star_lazy_intro (A : Type) (k : str -> option A) (a b : str) (r : A) :
  k b = Some r ->
  (forall a1 a2, a = a1 ++ a2 -> a2 <> [] -> k (a2 ++ b) = None) ->
  star_lazy space_or_not (a ++ b) k = Some r.
Proof.
  intros Hk. induction a as [|c a IH]; intros Hmin.
  - simpl app. destruct b; simpl; now rewrite Hk.
  - assert (H0 : k ((c :: a) ++ b) = None)
      by (apply (Hmin [] (c :: a) eq_refl); discriminate).
    simpl in *. rewrite H0, space_or_not_true. apply IH.
    intros a1 a2 -> Hne. now apply (Hmin (c :: a1)).
Qed.

Lemma isspace_not_backtick (c : char) : isspace c = true -> (BACKTICK =? c)%N = false.
Proof.
  intros H. destruct (N.eqb_spec BACKTICK c) as [<-|]; [discriminate|reflexivity].
Qed.

Lemma FENCE_eq : FENCE = [BACKTICK; BACKTICK; BACKTICK].
Proof. reflexivity. Qed.

(** When the continuation rejects every text that starts with whitespace,
    backtracking into [\s*] never helps. *)
Lemma star_greedy_all (A : Type) (k : str -> option A) (s : str) :
  (forall c s', isspace c = true -> k (c :: s') = None) ->
  star_greedy isspace s k = k (lstrip s).
Proof.
  intros Hk. induction s as [|c s IH]; [reflexivity|].
  cbn [star_greedy lstrip]. destruct (isspace c) eqn:Hc; [|reflexivity].
  rewrite IH. destruct (k (lstrip s)); [reflexivity|now apply Hk].
Qed.

(** The tail [\s*```] of both patterns. *)
Lemma close_fence (A : Type) (x : A) (s : str) :
  star_greedy isspace s
    (fun s4 => match drop_prefix FENCE s4 with
               | Some _ => Some x
               | None => None
               end)
  = if closes s then Some x else None.
Proof.
  rewrite star_greedy_all.
  - unfold closes, startswith.
    now destruct (drop_prefix FENCE (lstrip s)).
  - intros c s' Hc. rewrite FENCE_eq. cbn [drop_prefix].
    now rewrite (isspace_not_backtick _ Hc).
Qed.

(** What a fence pattern does at one position. *)
Lemma match_at_fence (opening s : str) :
  match_at (fence_re opening) s =
  match drop_prefix opening s with
  | None => None
  | Some s1 =>
      star_greedy isspace s1 (fun s2 =>
        star_lazy space_or_not s2 (fun s3 =>
          if closes s3
          then Some {| group1 := Some (firstn (length s2 - length s3) s2) |}
          else None))
  end.
Proof.
  unfold match_at, fence_re. simpl.
  destruct (drop_prefix opening s) as [s1|]; [|reflexivity].
  apply star_greedy_ext. intros s2. apply star_lazy_ext. intros s3.
  apply close_fence.
Qed.

Lemma firstn_app_exact (a b : str) :
  firstn (length (a ++ b) - length b) (a ++ b) = a.
Proof.
  rewrite length_app, Nat.add_sub, firstn_app, Nat.sub_diag, firstn_all.
  simpl. apply app_nil_r.
Qed.

Lemma closes_fence (y b : str) : closes ((FENCE ++ y) ++ b) = true.
Proof. reflexivity. Qed.

(** The text captured by a fence pattern holds no fence. *)
Lemma match_at_fence_captured (opening s : str) (m : match_) :
  match_at (fence_re opening) s = Some m ->
  exists g, group1 m = Some g /\ contains FENCE g = false.
Proof.
  rewrite match_at_fence. destruct (drop_prefix opening s) as [s1|]; [|discriminate].
  intros H. apply star_greedy_Some in H as (w & s2 & _ & H).
  apply star_lazy_Some in H as (a & b & -> & H & Hmin).
  destruct (closes b); [|discriminate]. injection H as <-.
  rewrite firstn_app_exact. exists a. split; [reflexivity|].
  destruct (contains FENCE a) eqn:E; [|reflexivity].
  apply contains_true in E as (x & y & ->).
  specialize (Hmin x (FENCE ++ y) eq_refl).
  rewrite closes_fence in Hmin. now discriminate Hmin.
Qed.

Lemma search_Some (r : regex) (s : str) (m : match_) :
  search r s = Some m -> exists a b, s = a ++ b /\ match_at r b = Some m.
Proof.
  induction s as [|c s IH]; simpl.
  - destruct (match_at r []) eqn:E; [|discriminate].
    intros [= ->]. now exists [], [].
  - destruct (match_at r (c :: s)) eqn:E.
    + intros [= ->]. now exists [], (c :: s).
    + intros H. destruct (IH H) as (a & b & -> & Hm). now exists (c :: a), b.
Qed.

Lemma search_fence_captured (opening s : str) (m : match_) :
  search (fence_re opening) s = Some m ->
  contains FENCE (strip (group_1 m)) = false.
Proof.
  intros H. apply search_Some in H as (a & b & _ & H).
  apply match_at_fence_captured in H as (g & Hg & Hc).
  unfold group_1. rewrite Hg. now apply contains_strip.
Qed.

(** [search] passes over the positions at which the pattern fails. *)
Lemma search_skip (r : regex) (pre rest : str) :
  (forall x y, pre = x ++ y -> y <> [] -> match_at r (y ++ rest) = None) ->
  search r (pre ++ rest) = search r rest.
Proof.
  induction pre as [|c pre IH]; intros H; [reflexivity|].
  assert (H0 : match_at r ((c :: pre) ++ rest) = None)
    by (apply (H [] (c :: pre) eq_refl); discriminate).
  simpl in *. rewrite H0. apply IH. intros x y -> Hy. now apply (H (c :: x)).
Qed.

Lemma search_here (r : regex) (s : str) (m : match_) :
  match_at r s = Some m -> search r s = Some m.
Proof. intros H. destruct s; simpl; now rewrite H. Qed.

End ReFacts.

(** ** The extractor *)

Section ExtractFacts.
Import Re.

Lemma lstrip_app_nonspace (a b : str) (c : char) :
  isspace c = false -> lstrip (a ++ c :: b) = lstrip a ++ c :: b.
Proof.
  intros Hc. induction a as [|d a IH]; simpl.
  - now rewrite Hc.
  - destruct (isspace d); [assumption|reflexivity].
Qed.

Lemma rstrip_cons (c : char) (s : str) :
  rstrip (c :: s) =
  match rstrip s with
  | [] => if isspace c then [] else [c]
  | r => c :: r
  end.
Proof. reflexivity. Qed.

Lemma rstrip_app_nonspace (a b : str) (c : char) :
  isspace c = false -> rstrip (a ++ c :: b) = a ++ c :: rstrip b.
Proof.
  intros Hc. induction a as [|d a IH].
  - simpl app. rewrite rstrip_cons, Hc. now destruct (rstrip b).
  - simpl app. rewrite rstrip_cons, IH. now destruct a.
Qed.

Lemma lstrip_all_space (w : str) : forallb isspace w = true -> lstrip w = [].
Proof.
  induction w as [|c w IH]; simpl; [reflexivity|].
  destruct (isspace c); [assumption|discriminate].
Qed.


Lemma lstrip_app_space (w s : str) :
  forallb isspace w = true -> lstrip (w ++ s) = lstrip s.
Proof.
  induction w as [|c w IH]; simpl; [reflexivity|].
  destruct (isspace c); [assumption|discriminate].
Qed.



(** The last character [rstrip] leaves is not whitespace. *)
Lemma rstrip_last (s x : str) (c : char) :
  rstrip s = x ++ [c] -> isspace c = false.
Proof.
  revert x; induction s as [|d s IH]; intros x.
  - destruct x; discriminate.
  - rewrite rstrip_cons. destruct (rstrip s) as [|e r] eqn:R.
    + destruct (isspace d) eqn:Hd.
      * destruct x; discriminate.
      * destruct x as [|? [|? ?]]; try discriminate. now intros [= <-].
    + destruct x as [|d' x]; [discriminate|].
      simpl. intros [= _ H]. now apply (IH x).
Qed.

Lemma rstrip_suffix_nonspace (s a1 a2 : str) :
  rstrip s = a1 ++ a2 -> a2 <> [] -> forallb isspace a2 = false.
Proof.
  intros H Hne. destruct (exists_last Hne) as (a2' & c & ->).
  rewrite app_assoc in H. apply rstrip_last in H.
  rewrite forallb_app. simpl. rewrite H. apply andb_false_r.
Qed.

Lemma forallb_firstn (A : Type) (p : A -> bool) (n : nat) (l : list A) :
  forallb p l = true -> forallb p (firstn n l) = true.
Proof.
  revert n; induction l as [|a l IH]; intros [|n]; simpl; trivial.
  intros [-> H]%andb_true_iff. now apply IH.
Qed.

(** Two decompositions of one text: the shorter front is a front of the
    longer one. *)
Lemma app_eq_firstn (A : Type) (a b x y : list A) :
  a ++ b = x ++ y -> length a <= length x -> a = firstn (length a) x.
Proof.
  intros H Hl.
  assert (E : firstn (length a) (a ++ b) = firstn (length a) (x ++ y))
    by now rewrite H.
  rewrite !firstn_app, Nat.sub_diag, firstn_all in E.
  replace (length a - length x) with 0 in E by lia.
  simpl in E. now rewrite !app_nil_r in E.
Qed.

(** The match of a fence pattern at its opening fence, when the closing
    fence that follows [body] is the first one after the opening. *)
Lemma match_at_fence_block (opening body post : str) :
  (forall x y, body ++ FENCE ++ post = x ++ FENCE ++ y ->
               length body <= length x) ->
  match_at (fence_re opening) (opening ++ body ++ FENCE ++ post)
  = Some {| group1 := Some (strip body) |}.
Proof.
  intros Hfirst. rewrite match_at_fence, drop_prefix_app.
  apply star_greedy_lstrip.
  destruct (lstrip_suffix body) as (w0 & Eb & Hw0).
  destruct (rstrip_prefix (lstrip body)) as (w & Ew & Hw).
  fold (strip body) in Ew.
  assert (E : lstrip (body ++ FENCE ++ post)
              = strip body ++ (w ++ FENCE ++ post)).
  { rewrite FENCE_eq. simpl app.
    rewrite lstrip_app_nonspace by reflexivity.
    rewrite Ew at 1. now rewrite <- app_assoc. }
  rewrite E. apply star_lazy_intro.
  - assert (Hc : closes (w ++ FENCE ++ post) = true).
    { unfold closes. rewrite lstrip_app_space by assumption. reflexivity. }
    now rewrite Hc, firstn_app_exact.
  - intros a1 a2 Ea Hne.
    destruct (closes (a2 ++ w ++ FENCE ++ post)) eqn:Hc; [|reflexivity].
    exfalso. unfold closes in Hc.
    destruct (lstrip_suffix (a2 ++ w ++ FENCE ++ post)) as (ws & Es & Hws).
    apply startswith_true in Hc as [rest Hc]. rewrite Hc in Es.
    assert (Hbody : body ++ FENCE ++ post
                    = (w0 ++ a1 ++ ws) ++ FENCE ++ rest).
    { rewrite Eb at 1. rewrite Ew, Ea. rewrite <- !app_assoc.
      do 2 f_equal. exact Es. }
    apply Hfirst in Hbody.
    assert (Hlen : length a2 <= length ws).
    { rewrite Eb, Ew, Ea in Hbody. rewrite !length_app in Hbody. lia. }
    pose proof (app_eq_firstn _ _ _ _ _ Es Hlen) as Hpre.
    pose proof (rstrip_suffix_nonspace (lstrip body) a1 a2 Ea Hne) as Hns.
    rewrite Hpre, forallb_firstn in Hns by assumption. discriminate.
Qed.

(** [re.search] with a fence pattern on a text whose first opening fence
    ends [pre]. *)
Lemma search_fence_block (opening pre body post : str) :
  (forall x y, pre ++ opening ++ body ++ FENCE ++ post = x ++ opening ++ y ->
               length pre <= length x) ->
  (forall x y, body ++ FENCE ++ post = x ++ FENCE ++ y ->
               length body <= length x) ->
  search (fence_re opening) (pre ++ opening ++ body ++ FENCE ++ post)
  = Some {| group1 := Some (strip body) |}.
Proof.
  intros Hopen Hclose. rewrite search_skip.
  - apply search_here. now apply match_at_fence_block.
  - intros x y -> Hy. rewrite match_at_fence.
    destruct (drop_prefix opening _) as [z|] eqn:E; [|reflexivity].
    exfalso. apply drop_prefix_Some in E.
    specialize (Hopen x z). rewrite <- app_assoc, E in Hopen.
    specialize (Hopen eq_refl). rewrite length_app in Hopen.
    destruct y; [congruence|simpl in Hopen; lia].
Qed.

End ExtractFacts.

Section ExtractClaims.
Import Re.

Lemma strip_fenced (opening' pre body post : str) :
  strip (pre ++ (BACKTICK :: opening') ++ body ++ FENCE ++ post)
  = lstrip pre ++ (BACKTICK :: opening') ++ body ++ FENCE ++ rstrip post.
Proof.
  assert (E : forall p q,
             p ++ (BACKTICK :: opening') ++ body ++ FENCE ++ q
             = (p ++ BACKTICK :: opening' ++ body ++ [BACKTICK; BACKTICK])
                 ++ BACKTICK :: q).
  { intros. rewrite FENCE_eq. simpl. rewrite <- !app_assoc. simpl.
    now rewrite <- !app_assoc. }
  unfold strip.
  change (pre ++ (BACKTICK :: opening') ++ body ++ FENCE ++ post)
    with (pre ++ BACKTICK :: (opening' ++ body ++ FENCE ++ post)).
  rewrite lstrip_app_nonspace by reflexivity.
  change (lstrip pre ++ BACKTICK :: opening' ++ body ++ FENCE ++ post)
    with (lstrip pre ++ (BACKTICK :: opening') ++ body ++ FENCE ++ post).
  rewrite !E. now apply rstrip_app_nonspace.
Qed.

(** On the stripped text the pattern finds the same block. *)
Lemma search_first_block (opening' text pre body post : str) :
  first_block (BACKTICK :: opening') text pre body post ->
  contains (BACKTICK :: opening') (strip text) = true /\
  search (fence_re (BACKTICK :: opening')) (strip text)
  = Some {| group1 := Some (strip body) |}.
Proof.
  intros (-> & Hop & Hcl).
  apply find_first_at in Hop as [_ Hop]. apply find_first_at in Hcl as [_ Hcl].
  rewrite strip_fenced.
  destruct (lstrip_suffix pre) as (w1 & E1 & _).
  destruct (rstrip_prefix post) as (w2 & E2 & _).
  split; [apply contains_app|].
  apply search_fence_block.
  - intros x y E.
    assert (Hl : length pre <= length (w1 ++ x)).
    { apply (Hop (w1 ++ x) (y ++ w2)).
      rewrite E1 at 1. rewrite E2 at 1. rewrite <- !app_assoc.
      f_equal. rewrite !app_assoc. f_equal. rewrite <- !app_assoc.
      exact E. }
    rewrite E1 in Hl at 1. rewrite !length_app in Hl. lia.
  - intros x y E. apply (Hcl x (y ++ w2)).
    rewrite E2 at 1. rewrite !app_assoc. f_equal. rewrite <- !app_assoc.
    exact E.
Qed.

(** A text without a fence goes through the extractor untouched. *)
Lemma extract_stripped_clean (x : str) :
  contains FENCE x = false -> extract_stripped x = x.
Proof.
  intros H. unfold extract_stripped, extract_plain.
  change JSON_FENCE with (FENCE ++ lit "json").
  now rewrite (contains_longer _ (lit "json") _ H), H.
Qed.

(** [extract_stripped] returns its argument or the stripped capture of a
    fence pattern. *)
Lemma extract_stripped_cases (x : str) :
  extract_stripped x = x \/
  exists m opening, search (fence_re opening) x = Some m /\
                    extract_stripped x = strip (group_1 m).
Proof.
  unfold extract_stripped, extract_plain.
  destruct (contains JSON_FENCE x).
  - destruct (search json_fence_re x) as [m|] eqn:E.
    + right. now exists m, JSON_FENCE.
    + destruct (contains FENCE x); [|now left].
      destruct (search plain_fence_re x) as [m|] eqn:E'; [|now left].
      right. now exists m, FENCE.
  - destruct (contains FENCE x); [|now left].
    destruct (search plain_fence_re x) as [m|] eqn:E'; [|now left].
    right. now exists m, FENCE.
Qed.

(** The extractor on a text with a first tagged block. *)
Lemma extract_json_first_block (text pre body post : str) :
  first_block JSON_FENCE text pre body post ->
  _extract_json text = strip body.
Proof.
  intros H. apply (search_first_block (lit "``json")) in H as [Hc Hs].
  unfold _extract_json, extract_stripped.
  change (BACKTICK :: lit "``json") with JSON_FENCE in Hc.
  change (fence_re (BACKTICK :: lit "``json")) with json_fence_re in Hs.
  rewrite Hc, Hs. unfold group_1. simpl. apply strip_idem.
Qed.

(** A text that holds a complete block has a first one. *)
Lemma has_first_block (opening text : str) :
  has_block opening text ->
  exists pre body post, first_block opening text pre body post.
Proof.
  intros (a & body' & post' & ->).
  destruct (find_occurrence opening a (body' ++ FENCE ++ post'))
    as (i & Hi & Hle).
  destruct (find_first_at _ _ _ Hi) as [(pre & rest & E & Hpre) _].
  subst i.
  (* a fence follows the first opening *)
  assert (exists y, rest = y ++ FENCE ++ post') as [y Hy].
  { assert (Ea : pre = firstn (length pre) a)
      by (symmetry in E; exact (app_eq_firstn _ _ _ _ _ E Hle)).
    set (z := skipn (length pre) a).
    assert (Hz : a = pre ++ z)
      by (unfold z; rewrite Ea at 1; symmetry; apply firstn_skipn).
    rewrite Hz, <- app_assoc in E. apply app_inv_head in E.
    assert (El : opening ++ rest
                 = (z ++ opening ++ body') ++ FENCE ++ post')
      by (rewrite <- E; now rewrite <- !app_assoc).
    assert (Hlen : length opening <= length (z ++ opening ++ body'))
      by (rewrite !length_app; lia).
    pose proof (app_eq_firstn _ _ _ _ _ El Hlen) as Ho.
    set (l := z ++ opening ++ body') in *.
    exists (skipn (length opening) l).
    apply (app_inv_head opening). rewrite El, (app_assoc opening). f_equal.
    rewrite <- (firstn_skipn (length opening) l) at 1. f_equal.
    now symmetry. }
  destruct (find_occurrence FENCE y post') as (k & Hk & _).
  rewrite <- Hy in Hk.
  destruct (find_first_at _ _ _ Hk) as [(body & post & Er & Hb) _].
  subst k. exists pre, body, post. split; [|split].
  - now rewrite E, Er.
  - exact Hi.
  - now rewrite <- Er.
Qed.

(** C8. When the text holds a complete json-tagged fenced block,
    [_extract_json] returns the trimmed interior of the first such block:
    the text between the first [```json] and the first closing fence after
    it, stripped. Nothing is asked of the rest of the text, so a plain
    fenced block may stand anywhere in it, also before the tagged one. *)
Theorem extract_json_prefers_tagged_block (text : str) :
  has_block JSON_FENCE text ->
  exists pre body post,
    first_block JSON_FENCE text pre body post /\
    _extract_json text = strip body.
Proof.
  intros H. destruct (has_first_block _ _ H) as (pre & body & post & Hb).
  exists pre, body, post. split; [exact Hb|].
  now apply (extract_json_first_block text pre body post).
Qed.

(** A plain block first, a tagged block second: the tagged one is taken. *)
Lemma extract_json_prefers_tagged_block_witness :
  let text := lit "``` plain ``` then ```json {} ``` end" in
  has_block FENCE text /\
  has_block JSON_FENCE text /\
  exists pre body post,
    first_block JSON_FENCE text pre body post /\
    _extract_json text = strip body.
Proof.
  intros text.
  assert (Hp : has_block FENCE text).
  { exists [], (lit " plain "), (lit " then ```json {} ``` end").
    reflexivity. }
  assert (Ht : has_block JSON_FENCE text).
  { exists (lit "``` plain ``` then "), (lit " {} "), (lit " end").
    reflexivity. }
  split; [exact Hp|]. split; [exact Ht|].
  exact (extract_json_prefers_tagged_block text Ht).
Defined.

(** On that text the interior of the tagged block is [{}]. *)
Example extract_json_tagged_after_plain :
  first_block JSON_FENCE (lit "``` plain ``` then ```json {} ``` end")
    (lit "``` plain ``` then ") (lit " {} ") (lit " end") /\
  _extract_json (lit "``` plain ``` then ```json {} ``` end") = lit "{}".
Proof. repeat split. Qed.

(** C9. [_extract_json] is idempotent. *)
Theorem extract_json_idempotent (text : str) :
  _extract_json (_extract_json text) = _extract_json text.
Proof.
  unfold _extract_json.
  destruct (extract_stripped_cases (strip text)) as [E|(m & opening & Hs & E)].
  - rewrite E, strip_idem. exact E.
  - rewrite E, strip_idem.
    apply extract_stripped_clean. exact (search_fence_captured _ _ _ Hs).
Qed.

End ExtractClaims.

(** ** The retry loop *)

Section RunnerFacts.

Context {service exn json T : Type}.
Variable ollama_chat : service -> str -> list message -> service * (exn + str).
Variable json_loads : str -> decode_result json exn.
Variable schema_cls : schema_class json exn T.
Variable model : str.
Variable max_retries : Z.

Local Abbreviation attempt_ := (attempt ollama_chat json_loads schema_cls model).
Local Abbreviation loop := (for_attempt ollama_chat json_loads schema_cls model
                          max_retries).
Local Abbreviation failed := (failed_attempts ollama_chat json_loads schema_cls
                            model).
Local Abbreviation call := (call_llm ollama_chat).

(** The attempt numbers [a], [a+1], ..., [a+k-1]. *)
Local Abbreviation numbers a k := (List.map Z.of_nat (seq a k)).

Lemma attempt_Validated (w w' : service) (p : str) (v : T) :
  attempt_ w p = (w', Validated v) ->
  exists raw data,
    call w p model = (w', inr raw) /\
    json_loads (_extract_json raw) = Parsed data /\
    model_validate schema_cls data = Valid v.
Proof.
  unfold attempt, parse_and_validate.
  destruct (call w p model) as [w1 [x|raw]]; [discriminate|].
  destruct (json_loads (_extract_json raw)) as [data|e|x] eqn:D;
    try discriminate.
  destruct (model_validate schema_cls data) as [v'|e|x] eqn:E; try discriminate.
  intros [= <- <-]. now exists raw, data.
Qed.

Lemma attempt_fault (w w' : service) (p : str) (x : exn) :
  call w p model = (w', inl x) -> attempt_ w p = (w', Faulted x).
Proof. unfold attempt. now intros ->. Qed.

Lemma attempt_decode_error (w w' : service) (p raw e : str) :
  call w p model = (w', inr raw) ->
  json_loads (_extract_json raw) = JSONDecodeError e ->
  attempt_ w p = (w', Invalid (lit "JSON decode error: " ++ e)).
Proof. unfold attempt, parse_and_validate. now intros -> ->. Qed.

Lemma attempt_validation_error (w w' : service) (p raw e : str) (data : json) :
  call w p model = (w', inr raw) ->
  json_loads (_extract_json raw) = Parsed data ->
  model_validate schema_cls data = ValidationError e ->
  attempt_ w p = (w', Invalid (lit "Schema validation error: " ++ e)).
Proof. unfold attempt, parse_and_validate. now intros -> -> ->. Qed.

Lemma attempt_valid (w w' : service) (p raw : str) (data : json) (v : T) :
  call w p model = (w', inr raw) ->
  json_loads (_extract_json raw) = Parsed data ->
  model_validate schema_cls data = Valid v ->
  attempt_ w p = (w', Validated v).
Proof. unfold attempt, parse_and_validate. now intros -> -> ->. Qed.

(** [last_error] is written by the loop before it is read. *)
Lemma loop_last_error (todo : list Z) (w : service) (sent : list str)
    (p : str) (le le' : option str) :
  loop todo w sent p le = loop todo w sent p le'.
Proof. destruct todo; reflexivity. Qed.

Lemma failed_attempts_app (es1 es2 : list str) (w w' : service) (p p' : str) :
  failed w p (es1 ++ es2) w' p' <->
  exists w1 p1, failed w p es1 w1 p1 /\ failed w1 p1 es2 w' p'.
Proof.
  revert w p; induction es1 as [|e es1 IH]; intros w p; simpl.
  - split.
    + intros H. now exists w, p.
    + now intros (w1 & p1 & [-> ->] & H).
  - split.
    + intros (w1 & Ha & H). apply IH in H as (w2 & p2 & H1 & H2).
      exists w2, p2. split; [now exists w1|assumption].
    + intros (w2 & p2 & (w1 & Ha & H1) & H2).
      exists w1. split; [assumption|]. apply IH. now exists w2, p2.
Qed.

(** After failed attempts the working prompt is the first prompt with one
    corrective suffix per failure. *)
Lemma failed_attempts_prompt (es : list str) (w w' : service) (p p' : str) :
  failed w p es w' p' -> p' = fold_left corrective_prompt es p.
Proof.
  revert w p; induction es as [|e es IH]; intros w p; simpl.
  - now intros [_ ->].
  - intros (w1 & _ & H). now apply IH in H.
Qed.

Lemma fold_corrective (es : list str) (p : str) :
  fold_left corrective_prompt es p = p ++ concat (List.map corrective_suffix es).
Proof.
  revert p; induction es as [|e es IH]; intros p; simpl.
  - now rewrite app_nil_r.
  - rewrite IH. unfold corrective_prompt. now rewrite <- app_assoc.
Qed.

Lemma prompts_sent_length (es : list str) (p : str) :
  length (prompts_sent p es) = length es.
Proof. revert p; induction es as [|e es IH]; intros p; simpl; auto. Qed.

Lemma prompts_sent_app (es1 es2 : list str) (p : str) :
  prompts_sent p (es1 ++ es2)
  = prompts_sent p es1 ++ prompts_sent (fold_left corrective_prompt es1 p) es2.
Proof.
  revert p; induction es1 as [|e es1 IH]; intros p; simpl; [reflexivity|].
  now rewrite IH.
Qed.

(** The loop over a run of failed attempts none of which is the last one
    allowed. *)
Lemma loop_failed_attempts (es : list str) :
  forall (a k : nat) (w w' : service) (p p' : str) (sent : list str)
         (le le' : option str),
    failed w p es w' p' ->
    (Z.of_nat (a + length es) < max_retries)%Z ->
    length es <= k ->
    loop (numbers a k) w sent p le
    = loop (numbers (a + length es) (k - length es)) w'
        (sent ++ prompts_sent p es) p' le'.
Proof.
  induction es as [|e es IH]; intros a k w w' p p' sent le le' Hf Hlt Hk.
  - destruct Hf as [-> ->]. simpl.
    rewrite Nat.add_0_r, Nat.sub_0_r, app_nil_r. apply loop_last_error.
  - destruct Hf as (w1 & Ha & Hf). simpl in Hk, Hlt.
    destruct k as [|k]; [lia|].
    simpl. rewrite Ha.
    replace (Z.of_nat a <? max_retries - 1)%Z with true
      by (symmetry; apply Z.ltb_lt; lia).
    rewrite (IH (S a) k w1 w' _ p' _ _ le' Hf) by (simpl; lia).
    rewrite <- app_assoc. simpl.
    now replace (S (a + length es)) with (a + S (length es)) by lia.
Qed.

(** The loop logs the prompt of the attempt it starts with. *)
Lemma loop_calls (todo : list Z) (w : service) (sent : list str) (p : str)
    (le : option str) :
  todo <> [] ->
  exists more, calls (loop todo w sent p le) = sent ++ p :: more.
Proof.
  revert w sent p le. induction todo as [|n todo IH]; intros w sent p le Hne;
    [congruence|].
  simpl. destruct (attempt_ w p) as [w' [v|e|x]].
  - now exists [].
  - destruct (n <? max_retries - 1)%Z; [|now exists []].
    destruct todo as [|n' todo'].
    + now exists [].
    + destruct (IH w' (sent ++ [p]) (corrective_prompt p e) (Some e))
        as [more Hm]; [discriminate|].
      rewrite Hm. exists (corrective_prompt p e :: more).
      now rewrite <- app_assoc.
  - now exists [].
Qed.

(** With at least one attempt to run, the last of which carries the number
    [max_retries - 1], the loop does not run off its end: it returns what
    [model_validate] made of the decoded text of the last response, or it
    raises. *)
Lemma loop_returns_or_raises (k : nat) :
  forall (a : nat) (w : service) (sent : list str) (p : str)
         (le : option str),
    1 <= k -> Z.of_nat (a + k) = max_retries ->
    let r := loop (numbers a k) w sent p le in
    (exists v w0 p0 raw data,
        outcome r = Return v /\
        call w0 p0 model = (final r, inr raw) /\
        last (calls r) [] = p0 /\
        json_loads (_extract_json raw) = Parsed data /\
        model_validate schema_cls data = Valid v) \/
    (exists e, outcome r = Raise e).
Proof.
  induction k as [|k IH]; intros a w sent p le Hk Hmax; [lia|].
  simpl. destruct (attempt_ w p) as [w' [v|e|x]] eqn:Ha.
  - left. apply attempt_Validated in Ha as (raw & data & Hc & Hd & Hv).
    exists v, w, p, raw, data. simpl. now rewrite last_last.
  - destruct (Z.ltb_spec (Z.of_nat a) (max_retries - 1)) as [Hlt|Hge].
    + apply IH; lia.
    + right. now eexists.
  - right. now eexists.
Qed.

End RunnerFacts.

Lemma contains_skip (needle a b : str) :
  contains needle b = true -> contains needle (a ++ b) = true.
Proof.
  intros H. apply contains_true in H as (x & y & ->).
  rewrite app_assoc. apply contains_app.
Qed.

(** The corrective prompt quotes the error verbatim. *)
Lemma corrective_prompt_contains (p e : str) :
  contains e (corrective_prompt p e) = true.
Proof.
  unfold corrective_prompt, corrective_suffix.
  do 7 apply contains_skip. apply (contains_app e []).
Qed.

Section RunnerClaims.

Context {service exn json T : Type}.
Variable ollama_chat : service -> str -> list message -> service * (exn + str).
Variable json_loads : str -> decode_result json exn.
Variable schema_cls : schema_class json exn T.
Variable model : str.
Variable max_retries : Z.

Local Abbreviation ask prompt w :=
  (ask_llm_for_json ollama_chat json_loads prompt schema_cls model
     max_retries w).
Local Abbreviation attempt_ := (attempt ollama_chat json_loads schema_cls model).
Local Abbreviation failed := (failed_attempts ollama_chat json_loads schema_cls
                                model).
Local Abbreviation call := (call_llm ollama_chat).

Lemma range_numbers (n : Z) : range n = List.map Z.of_nat (seq 0 (Z.to_nat n)).
Proof. reflexivity. Qed.

(** C1. With [max_retries >= 1] a call either returns one value, which is
    what [model_validate] made of the decoded text of the response to the
    last prompt sent, or it raises; it never returns anything else. *)
Theorem ask_llm_for_json_validated_or_raises (prompt : str) (w : service) :
  (1 <= max_retries)%Z ->
  let r := ask prompt w in
  (exists v w0 p0 raw data,
      outcome r = Return v /\
      call w0 p0 model = (final r, inr raw) /\
      last (calls r) [] = p0 /\
      json_loads (_extract_json raw) = Parsed data /\
      model_validate schema_cls data = Valid v) \/
  (exists e, outcome r = Raise e).
Proof.
  intros H. unfold ask_llm_for_json. rewrite range_numbers.
  apply loop_returns_or_raises; lia.
Qed.

(** C10. With [max_retries <= 0] the loop body never runs: the service is
    not called and is left as it was, nothing is raised, and the call
    returns [None]. *)
Theorem ask_llm_for_json_without_attempts (prompt : str) (w : service) :
  (max_retries <= 0)%Z ->
  ask prompt w = {| final := w; calls := []; outcome := ReturnNone |}.
Proof.
  intros H. unfold ask_llm_for_json, range.
  now replace (Z.to_nat max_retries) with 0 by lia.
Qed.

(** The run up to the attempt that follows the failed attempts [es], when
    that attempt is still within the budget. *)
Lemma ask_after_failures (prompt : str) (w w' : service) (p' : str)
    (es : list str) :
  failed w prompt es w' p' ->
  (Z.of_nat (length es) < max_retries)%Z ->
  ask prompt w
  = for_attempt ollama_chat json_loads schema_cls model max_retries
      (List.map Z.of_nat (seq (length es) (Z.to_nat max_retries - length es)))
      w' (prompts_sent prompt es) p' None.
Proof.
  intros Hf Hlt. unfold ask_llm_for_json. rewrite range_numbers.
  rewrite (loop_failed_attempts ollama_chat json_loads schema_cls model
             max_retries es 0 (Z.to_nat max_retries) w w' prompt p' []
             None None Hf) by (simpl; lia).
  reflexivity.
Qed.

(** C2, as the code has it. Each failed attempt that is not the last
    appends the corrective suffix, with the error just recorded in it, to
    the current working prompt. The suffixes pile up: after the failures
    [es] the prompt sent next is the original prompt followed by one suffix
    for each of them, in order. *)
Theorem corrective_suffixes_accumulate (prompt : str) (w w' : service)
    (p' : str) (es : list str) :
  failed w prompt es w' p' ->
  (Z.of_nat (length es) < max_retries)%Z ->
  nth_error (calls (ask prompt w)) (length es)
  = Some (prompt ++ concat (List.map corrective_suffix es)).
Proof.
  intros Hf Hlt. rewrite (ask_after_failures prompt w w' p' es Hf Hlt).
  destruct (Z.to_nat max_retries - length es) as [|k] eqn:Hk; [lia|].
  destruct (loop_calls ollama_chat json_loads schema_cls model max_retries
              (List.map Z.of_nat (seq (length es) (S k))) w'
              (prompts_sent prompt es) p' None) as [more Hm];
    [discriminate|].
  rewrite Hm, nth_error_app2; rewrite prompts_sent_length; [|lia].
  rewrite Nat.sub_diag. simpl.
  now rewrite (failed_attempts_prompt _ _ _ _ _ _ _ _ _ Hf), fold_corrective.
Qed.

(** C4. When [max_retries >= 1] attempts in a row fail, each with a decode
    error or a validation error on the text the extractor returned, the
    call raises the [ValueError] whose message gives [max_retries] as the
    number of attempts and ends with the error recorded on the last one;
    the service has been called [max_retries] times. *)
Theorem ask_llm_for_json_exhausted (prompt : str) (w w' : service) (p' : str)
    (es : list str) :
  (1 <= max_retries)%Z ->
  Z.of_nat (length es) = max_retries ->
  failed w prompt es w' p' ->
  outcome (ask prompt w)
  = Raise (ValueError (lit "Failed after " ++ str_of_Z max_retries
                         ++ lit " attempts. Last error: " ++ last es [])) /\
  calls (ask prompt w) = prompts_sent prompt es /\
  Z.of_nat (length (calls (ask prompt w))) = max_retries /\
  final (ask prompt w) = w'.
Proof.
  intros Hmax Hlen Hf.
  destruct es as [|e0 es0] using rev_ind; [simpl in Hlen; lia|]. clear IHes0.
  rename es0 into es, e0 into e.
  apply failed_attempts_app in Hf as (w1 & p1 & Hf & (w2 & Ha & [-> ->])).
  rewrite length_app in Hlen. simpl in Hlen.
  rewrite (ask_after_failures prompt w w1 p1 es Hf) by lia.
  replace (Z.to_nat max_retries - length es) with 1 by lia.
  simpl. rewrite Ha.
  replace (Z.of_nat (length es) <? max_retries - 1)%Z with false
    by (symmetry; apply Z.ltb_ge; lia).
  simpl. rewrite last_last, prompts_sent_app.
  rewrite <- (failed_attempts_prompt _ _ _ _ _ _ _ _ _ Hf). simpl.
  repeat split.
  rewrite length_app, prompts_sent_length. simpl. lia.
Qed.

(** C5. The first response does not decode, the second decodes and
    validates, both judged as the loop does on the text the extractor
    returns, and at least two attempts are allowed: the call returns the
    validated value after two calls of the service, and the prompt of the
    second call contains the decode error recorded on the first attempt. *)
Theorem ask_llm_for_json_second_attempt (prompt : str) (w w1 w2 : service)
    (raw1 e1 raw2 : str) (data : json) (v : T) :
  let last_error := lit "JSON decode error: " ++ e1 in
  let prompt2 := corrective_prompt prompt last_error in
  (2 <= max_retries)%Z ->
  call w prompt model = (w1, inr raw1) ->
  json_loads (_extract_json raw1) = JSONDecodeError e1 ->
  call w1 prompt2 model = (w2, inr raw2) ->
  json_loads (_extract_json raw2) = Parsed data ->
  model_validate schema_cls data = Valid v ->
  ask prompt w
  = {| final := w2; calls := [prompt; prompt2]; outcome := Return v |} /\
  contains last_error prompt2 = true.
Proof.
  intros last_error prompt2 Hmax Hc1 Hd1 Hc2 Hd2 Hv.
  pose proof (attempt_decode_error ollama_chat json_loads schema_cls model
                _ _ _ _ _ Hc1 Hd1) as Ha1.
  pose proof (attempt_valid ollama_chat json_loads schema_cls model
                _ _ _ _ _ _ Hc2 Hd2 Hv) as Ha2.
  split.
  - rewrite (ask_after_failures prompt w w1 prompt2 [last_error]).
    + simpl length.
      destruct (Z.to_nat max_retries - 1) as [|k] eqn:Hk; [lia|].
      simpl. now rewrite Ha2.
    + simpl. exists w1. now split.
    + simpl. lia.
  - apply corrective_prompt_contains.
Qed.

(** C6. A fault of the completion service ends the call at once: after
    the failed attempts [es], a fault on the next call is raised to the
    caller as it is, and that call is the last one made. *)
Theorem ask_llm_for_json_service_fault (prompt : str) (w w1 w2 : service)
    (p1 : str) (es : list str) (x : exn) :
  failed w prompt es w1 p1 ->
  (Z.of_nat (length es) < max_retries)%Z ->
  call w1 p1 model = (w2, inl x) ->
  ask prompt w
  = {| final := w2; calls := prompts_sent prompt es ++ [p1];
       outcome := Raise (Uncaught x) |}.
Proof.
  intros Hf Hlt Hc.
  rewrite (ask_after_failures prompt w w1 p1 es Hf Hlt).
  destruct (Z.to_nat max_retries - length es) as [|k] eqn:Hk; [lia|].
  simpl.
  now rewrite (attempt_fault ollama_chat json_loads schema_cls model _ _ _ _ Hc).
Qed.

End RunnerClaims.

(** ** The loop on scripted services *)

Section RunnerExamples.

Local Abbreviation loads := (Json.loads cpython).
Local Abbreviation QA := (Schemas.QAResponse_cls plain_details py_exception).

Lemma ask_llm_for_json_validated_or_raises_witness :
  let r := ask_scripted example_prompt DEFAULT_MODEL 3
             [inr malformed_response; inr good_response] in
  (1 <= 3)%Z /\
  ((exists v w0 p0 raw data,
       outcome r = Return v /\
       call_llm scripted_chat w0 p0 DEFAULT_MODEL = (final r, inr raw) /\
       last (calls r) [] = p0 /\
       loads (_extract_json raw) = Parsed data /\
       model_validate QA data = Valid v) \/
   (exists e, outcome r = Raise e)).
Proof.
  split; [lia|].
  apply (ask_llm_for_json_validated_or_raises scripted_chat loads QA
           DEFAULT_MODEL 3 example_prompt
           [inr malformed_response; inr good_response]).
  lia.
Defined.

Lemma ask_llm_for_json_without_attempts_witness :
  (0 <= 0)%Z /\
  ask_scripted example_prompt DEFAULT_MODEL 0 [inr good_response]
  = {| final := [inr good_response]; calls := []; outcome := ReturnNone |}.
Proof.
  split; [lia|].
  apply (ask_llm_for_json_without_attempts scripted_chat loads QA
           DEFAULT_MODEL 0 example_prompt [inr good_response]).
  lia.
Defined.

(** Two failures, a third attempt allowed: its prompt carries both
    corrective suffixes. *)
Lemma corrective_suffixes_accumulate_witness :
  let w := [inr malformed_response; inr incomplete_response;
            inr good_response] in
  let es := [malformed_error; incomplete_error] in
  failed_attempts scripted_chat loads QA DEFAULT_MODEL w example_prompt es
    [inr good_response]
    (example_prompt ++ corrective_suffix malformed_error
       ++ corrective_suffix incomplete_error) /\
  (Z.of_nat (length es) < 3)%Z /\
  nth_error (calls (ask_scripted example_prompt DEFAULT_MODEL 3 w)) 2
  = Some (example_prompt ++ corrective_suffix malformed_error
            ++ corrective_suffix incomplete_error ++ []).
Proof.
  intros w es.
  assert (Hf : failed_attempts scripted_chat loads QA DEFAULT_MODEL w
                 example_prompt es [inr good_response]
                 (example_prompt ++ corrective_suffix malformed_error
                    ++ corrective_suffix incomplete_error)).
  { simpl. eexists. split; [vm_compute; reflexivity|].
    eexists. split; [vm_compute; reflexivity|].
    split; [reflexivity|]. unfold corrective_prompt.
    now rewrite <- app_assoc. }
  assert (Hlt : (Z.of_nat (length es) < 3)%Z) by (simpl; lia).
  split; [exact Hf|]. split; [exact Hlt|].
  exact (corrective_suffixes_accumulate scripted_chat loads QA DEFAULT_MODEL 3
           example_prompt w _ _ es Hf Hlt).
Defined.

(** C2 as stated fails: with three failures in a row, the third prompt is
    not the original prompt with the one suffix for the second error; it
    holds two corrective suffixes. *)
Lemma prompt_from_original_counterexample :
  let r := ask_scripted example_prompt DEFAULT_MODEL 3
             [inr malformed_response; inr incomplete_response;
              inr malformed_response] in
  failed_attempts scripted_chat loads QA DEFAULT_MODEL
    [inr malformed_response; inr incomplete_response; inr malformed_response]
    example_prompt [malformed_error; incomplete_error]
    [inr malformed_response]
    (corrective_prompt (corrective_prompt example_prompt malformed_error)
       incomplete_error) /\
  nth_error (calls r) 2
  <> Some (example_prompt ++ corrective_suffix incomplete_error) /\
  option_map (count (lit "Your previous response was invalid:"))
    (nth_error (calls r) 2) = Some 2.
Proof.
  split; [|split].
  - simpl. eexists. split; [vm_compute; reflexivity|].
    eexists. split; [vm_compute; reflexivity|]. now split.
  - vm_compute. discriminate.
  - vm_compute. reflexivity.
Qed.

Lemma ask_llm_for_json_exhausted_witness :
  let w := [inr malformed_response; inr incomplete_response;
            inr good_response] in
  let es := [malformed_error; incomplete_error] in
  let r := ask_scripted example_prompt DEFAULT_MODEL 2 w in
  (1 <= 2)%Z /\ Z.of_nat (length es) = 2%Z /\
  failed_attempts scripted_chat loads QA DEFAULT_MODEL w example_prompt es
    [inr good_response]
    (corrective_prompt (corrective_prompt example_prompt malformed_error)
       incomplete_error) /\
  outcome r
  = Raise (ValueError (lit "Failed after " ++ str_of_Z 2
                         ++ lit " attempts. Last error: " ++ incomplete_error))
  /\ calls r = prompts_sent example_prompt es
  /\ Z.of_nat (length (calls r)) = 2%Z
  /\ final r = [inr good_response].
Proof.
  intros w es r.
  assert (Hf : failed_attempts scripted_chat loads QA DEFAULT_MODEL w
                 example_prompt es [inr good_response]
                 (corrective_prompt
                    (corrective_prompt example_prompt malformed_error)
                    incomplete_error)).
  { simpl. eexists. split; [vm_compute; reflexivity|].
    eexists. split; [vm_compute; reflexivity|]. now split. }
  assert (H1 : (1 <= 2)%Z) by lia.
  assert (H2 : Z.of_nat (length es) = 2%Z) by reflexivity.
  split; [exact H1|]. split; [exact H2|]. split; [exact Hf|].
  exact (ask_llm_for_json_exhausted scripted_chat loads QA DEFAULT_MODEL 2
           example_prompt w _ _ es H1 H2 Hf).
Defined.

Lemma ask_llm_for_json_second_attempt_witness :
  let w := [inr malformed_response; inr good_response] in
  let last_error := lit "JSON decode error: "
                    ++ lit "Expecting value: line 1 column 1 (char 0)" in
  let prompt2 := corrective_prompt example_prompt last_error in
  (2 <= 3)%Z /\
  call_llm scripted_chat w example_prompt DEFAULT_MODEL
  = ([inr good_response], inr malformed_response) /\
  loads (_extract_json malformed_response)
  = JSONDecodeError (lit "Expecting value: line 1 column 1 (char 0)") /\
  call_llm scripted_chat [inr good_response] prompt2 DEFAULT_MODEL
  = ([], inr good_response) /\
  (exists data,
      loads (_extract_json good_response) = Parsed data /\
      model_validate QA data = Valid good_value) /\
  ask_scripted example_prompt DEFAULT_MODEL 3 w
  = {| final := []; calls := [example_prompt; prompt2];
       outcome := Return good_value |} /\
  contains last_error prompt2 = true.
Proof.
  intros w last_error prompt2.
  assert (H0 : (2 <= 3)%Z) by lia.
  assert (H1 : call_llm scripted_chat w example_prompt DEFAULT_MODEL
               = ([inr good_response], inr malformed_response))
    by reflexivity.
  assert (H2 : loads (_extract_json malformed_response)
               = JSONDecodeError
                   (lit "Expecting value: line 1 column 1 (char 0)"))
    by (vm_compute; reflexivity).
  assert (H3 : call_llm scripted_chat [inr good_response] prompt2
                 DEFAULT_MODEL = ([], inr good_response)) by reflexivity.
  destruct (loads (_extract_json good_response)) as [data|e|x] eqn:H4;
    try (exfalso; vm_compute in H4; discriminate H4).
  assert (H5 : model_validate QA data = Valid good_value).
  { vm_compute in H4. injection H4 as <-. vm_compute. reflexivity. }
  repeat (split; [assumption|]).
  split; [now exists data|].
  exact (ask_llm_for_json_second_attempt scripted_chat loads QA DEFAULT_MODEL
           3 example_prompt w _ _ _ _ _ data good_value H0 H1 H2 H3 H4 H5).
Defined.

Lemma ask_llm_for_json_service_fault_witness :
  let fault := ResponseError (lit "model not found") in
  let w := [inr malformed_response; inl fault; inr good_response] in
  let p1 := corrective_prompt example_prompt malformed_error in
  failed_attempts scripted_chat loads QA DEFAULT_MODEL w example_prompt
    [malformed_error] [inl fault; inr good_response] p1 /\
  (Z.of_nat (length [malformed_error]) < 3)%Z /\
  call_llm scripted_chat [inl fault; inr good_response] p1 DEFAULT_MODEL
  = ([inr good_response], inl fault) /\
  ask_scripted example_prompt DEFAULT_MODEL 3 w
  = {| final := [inr good_response];
       calls := prompts_sent example_prompt [malformed_error] ++ [p1];
       outcome := Raise (Uncaught fault) |}.
Proof.
  intros fault w p1.
  assert (Hf : failed_attempts scripted_chat loads QA DEFAULT_MODEL w
                 example_prompt [malformed_error]
                 [inl fault; inr good_response] p1).
  { simpl. eexists. split; [vm_compute; reflexivity|]. now split. }
  assert (Hlt : (Z.of_nat (length [malformed_error]) < 3)%Z) by (simpl; lia).
  assert (Hc : call_llm scripted_chat [inl fault; inr good_response] p1
                 DEFAULT_MODEL = ([inr good_response], inl fault))
    by reflexivity.
  split; [exact Hf|]. split; [exact Hlt|]. split; [exact Hc|].
  exact (ask_llm_for_json_service_fault scripted_chat loads QA DEFAULT_MODEL 3
           example_prompt w _ _ p1 [malformed_error] fault Hf Hlt Hc).
Defined.

End RunnerExamples.

(** ** The schema classes *)

Section SchemaFacts.
Import Json Schemas.

Lemma join_cons (sep x : str) (l : list str) :
  exists rest, join sep (x :: l) = x ++ rest.
Proof.
  destruct l as [|y l]; simpl.
  - exists []. now rewrite app_nil_r.
  - now eexists.
Qed.

(** The error of a payload without [answer] starts with the entry for the
    missing field. *)
Lemma validate_QAResponse_missing_answer (pairs : list (str * value)) :
  dict_get (lit "answer") pairs = None ->
  exists errs,
    validate_QAResponse (JDict pairs)
    = inl ({| loc := [Key (lit "answer")]; type_ := missing;
              input := JDict pairs |} :: errs).
Proof.
  intros H. unfold validate_QAResponse, required_field. rewrite H.
  destruct (field_with_default (lit "citations")
              (validate_list validate_Citation) [] pairs) as [errs|c].
  - now exists errs.
  - now exists [].
Qed.

(** C7. A decoded payload that is a dict without the key [answer] does not
    validate against [QAResponse], whatever its [citations] are: the loop
    records a schema validation error, and the text of the error has the
    entry of the missing field, headed by the field's name [answer]. *)
Theorem missing_answer_is_rejected (exn : Type) (details : line_error -> str)
    (json_loads : str -> decode_result value exn) (json_str : str)
    (pairs : list (str * value)) :
  json_loads json_str = Parsed (JDict pairs) ->
  dict_get (lit "answer") pairs = None ->
  exists e n plural rest,
    model_validate (QAResponse_cls details exn) (JDict pairs)
    = ValidationError e /\
    parse_and_validate json_loads (QAResponse_cls details exn) json_str
    = Invalid (lit "Schema validation error: " ++ e) /\
    e = str_of_nat n ++ lit " validation error" ++ plural
          ++ lit " for QAResponse" ++ [NL]
          ++ lit "answer" ++ [NL] ++ lit "  Field required [type=missing"
          ++ rest.
Proof.
  intros Hd Hk.
  destruct (validate_QAResponse_missing_answer pairs Hk) as [errs Hv].
  set (e1 := {| loc := [Key (lit "answer")]; type_ := missing;
                input := JDict pairs |}) in Hv.
  assert (Hm : model_validate (QAResponse_cls details exn) (JDict pairs)
               = ValidationError
                   (str_ValidationError details (lit "QAResponse")
                      (e1 :: errs))).
  { cbn [model_validate QAResponse_cls]. now rewrite Hv. }
  destruct (join_cons [NL] (str_line_error details e1)
              (List.map (str_line_error details) errs)) as [rest Hj].
  eexists. exists (length (e1 :: errs)).
  exists (if (length (e1 :: errs) =? 1)%nat then [] else lit "s").
  exists (details e1 ++ rest).
  split; [exact Hm|]. split.
  { unfold parse_and_validate. now rewrite Hd, Hm. }
  unfold str_ValidationError. cbn [List.map]. rewrite Hj.
  unfold str_line_error, e1. simpl loc. simpl type_. simpl message.
  simpl type_string. cbn [join List.map str_loc_item].
  rewrite <- !app_assoc. reflexivity.
Qed.

(** A payload with a well-formed citation and no answer. *)
Lemma missing_answer_is_rejected_witness :
  let pairs :=
    [(lit "citations",
      JList [JDict [(lit "source_id", JStr (lit "doc_001"));
                    (lit "quote", JStr (lit "revenue of $50M in Q3"))]])] in
  Json.loads cpython incomplete_response = Parsed (JDict pairs) /\
  dict_get (lit "answer") pairs = None /\
  exists e n plural rest,
    model_validate (QAResponse_cls plain_details py_exception) (JDict pairs)
    = ValidationError e /\
    parse_and_validate (Json.loads cpython)
      (QAResponse_cls plain_details py_exception) incomplete_response
    = Invalid (lit "Schema validation error: " ++ e) /\
    e = str_of_nat n ++ lit " validation error" ++ plural
          ++ lit " for QAResponse" ++ [NL]
          ++ lit "answer" ++ [NL] ++ lit "  Field required [type=missing"
          ++ rest.
Proof.
  intros pairs.
  assert (H1 : Json.loads cpython incomplete_response
               = Parsed (JDict pairs)) by (vm_compute; reflexivity).
  assert (H2 : dict_get (lit "answer") pairs = None)
    by (vm_compute; reflexivity).
  split; [exact H1|]. split; [exact H2|].
  exact (missing_answer_is_rejected py_exception plain_details
           (Json.loads cpython) incomplete_response pairs H1 H2).
Defined.

End SchemaFacts.

(** ** The decoder and text that follows a document

    What follows a document does not change how the document is read, when
    it is made of characters that belong to no token: the scanner gives the
    same value and leaves the same rest, with that text after it. *)


Section JsonFacts.
Import Json.












Lemma match_frac_eq (dot d : char) (s : str) :
  match_frac (dot :: d :: s)
  = if (dot =? ch ".")%N && is_digit d
    then let (ds, r) := span is_digit s in (Some (dot :: d :: ds), r)
    else (None, dot :: d :: s).
Proof. reflexivity. Qed.

Lemma match_exp_eq (e : char) (s : str) :
  match_exp (e :: s)
  = if ((e =? ch "e") || (e =? ch "E"))%N then
      let (sign, s'') :=
        match s with
        | sg :: t =>
            if ((sg =? ch "-") || (sg =? ch "+"))%N then ([sg], t)
            else ([], s)
        | [] => ([], s)
        end in
      match span is_digit s'' with
      | ([], _) => (None, e :: s)
      | (ds, r) => (Some (e :: sign ++ ds), r)
      end
    else (None, e :: s).
Proof. reflexivity. Qed.

Lemma match_unsigned_eq (neg : bool) (d : char) (s : str) :
  match_unsigned neg (d :: s)
  = if is_digit19 d then
      let (ds, s3) := span is_digit s in after_integer neg (d :: ds) s3
    else if (d =? ch "0")%N then after_integer neg [d] s
    else None.
Proof. reflexivity. Qed.

Lemma match_number_eq (c : char) (s : str) :
  match_number (c :: s)
  = if (c =? ch "-")%N then match_unsigned true s
    else match_unsigned false (c :: s).
Proof. reflexivity. Qed.







Lemma hex4_length (s r : str) (u : N) :
  hex4 s = Some (u, r) -> length s = 4 + length r.
Proof.
  destruct s as [|a [|b [|c [|d s]]]]; try discriminate. unfold hex4.
  destruct (hexval a), (hexval b), (hexval c), (hexval d); try discriminate.
  now intros [= _ ->].
Qed.

End JsonFacts.

Section JsonStrings.
Import Json.

Lemma scanstring_eq (f b : nat) (acc : str) (c : char) (s1 : str) :
  scanstring (S f) b acc (c :: s1)
  = if (c =? DQUOTE)%N then Ok (rev acc) s1
    else if (c =? BACKSLASH)%N then
      match s1 with
      | [] => Err UnterminatedString b
      | e :: s2 =>
          if (e =? ch "u")%N then
            if (length s2 <? 5)%nat then Err InvalidUnicodeEscape (length s1)
            else
              match hex4 s2 with
              | None => Err InvalidUnicodeEscape (length s1)
              | Some (uni, s3) =>
                  if is_high_surrogate uni && (7 <=? length s3)%nat
                     && startswith s3 [BACKSLASH; ch "u"]
                  then
                    match hex4 (skipn 2 s3) with
                    | None => Err InvalidUnicodeEscape (length s3 - 1)
                    | Some (uni2, s4) =>
                        if is_low_surrogate uni2
                        then scanstring f b (join_surrogates uni uni2 :: acc) s4
                        else scanstring f b (uni :: acc) s3
                    end
                  else scanstring f b (uni :: acc) s3
              end
          else
            match unescape e with
            | Some x => scanstring f b (x :: acc) s2
            | None => Err InvalidEscape (length (c :: s1))
            end
      end
    else if (c <=? 31)%N then Err InvalidControlCharacter (length (c :: s1))
    else scanstring f b (c :: acc) s1.
Proof. reflexivity. Qed.






End JsonStrings.

(** Closes a goal in which a scan that raised is taken for another
    result. *)
Ltac raised_or_not :=
  unfold Json.raise_errmsg in *;
  repeat match goal with
         | H : context [Nat.leb ?a ?b] |- _ => destruct (Nat.leb a b)
         | |- context [Nat.leb ?a ?b] => destruct (Nat.leb a b)
         end.

Ltac no_scan :=
  first
    [ discriminate
    | raised_or_not; discriminate
    | simpl in *; raised_or_not; discriminate ].

Section JsonValues.
Import Json.

Variables digits frames : nat.

Local Abbreviation scan_once := (Json.scan_once digits frames).
Local Abbreviation array_items := (Json.array_items digits frames).
Local Abbreviation object_items := (Json.object_items digits frames).
Local Abbreviation int_too_long := (Json.int_too_long digits).
Local Abbreviation raise_errmsg := (Json.raise_errmsg frames).

Lemma scan_once_eq (d f : nat) (c : char) (s1 : str) :
  scan_once d (S f) (c :: s1)
  = if (c =? DQUOTE)%N then
      match scanstring (length (c :: s1)) (length (c :: s1)) [] s1 with
      | Ok x r => Ok (JStr x) r
      | Err m n => raise_errmsg d m n
      | Halt h => Halt h
      end
    else if (c =? ch "{")%N then
      match d with
      | O => Halt RecursionLimit
      | S d' =>
          match skip_ws s1 with
          | [] => raise_errmsg d' ExpectingPropertyName 0
          | c1 :: s2 =>
              if (c1 =? ch "}")%N then Ok (JDict []) s2
              else object_items d' f [] (c1 :: s2)
          end
      end
    else if (c =? ch "[")%N then
      match d with
      | O => Halt RecursionLimit
      | S d' =>
          match skip_ws s1 with
          | [] => Err ExpectingValue 0
          | c1 :: s2 =>
              if (c1 =? ch "]")%N then Ok (JList []) s2
              else array_items d' f [] (c1 :: s2)
          end
      end
    else
      match match_constant (c :: s1) with
      | Some (v, r) => Ok v r
      | None =>
          match match_number (c :: s1) with
          | Some (v, r) =>
              if int_too_long v then Halt IntMaxStrDigits else Ok v r
          | None => Err ExpectingValue (length (c :: s1))
          end
      end.
Proof. reflexivity. Qed.

Lemma array_items_eq (d f : nat) (acc : list value) (s : str) :
  array_items d (S f) acc s
  = match scan_once d f s with
    | Ok v r =>
        match skip_ws r with
        | [] => raise_errmsg d ExpectingComma 0
        | c :: r1 =>
            if (c =? ch "]")%N then Ok (JList (rev (v :: acc))) r1
            else if (c =? ch ",")%N
                 then array_items d f (v :: acc) (skip_ws r1)
            else raise_errmsg d ExpectingComma (length (c :: r1))
        end
    | Err m n => Err m n
    | Halt h => Halt h
    end.
Proof. reflexivity. Qed.

Lemma object_items_eq (d f : nat) (acc : list (str * value)) (q : char)
    (s1 : str) :
  object_items d (S f) acc (q :: s1)
  = if negb (q =? DQUOTE)%N
    then raise_errmsg d ExpectingPropertyName (length (q :: s1))
    else
      match scanstring (length (q :: s1)) (length (q :: s1)) [] s1 with
      | Ok key r =>
          match skip_ws r with
          | [] => raise_errmsg d ExpectingColon 0
          | c :: r1 =>
              if negb (c =? ch ":")%N
              then raise_errmsg d ExpectingColon (length (c :: r1))
              else
                match scan_once d f (skip_ws r1) with
                | Ok v r2 =>
                    match skip_ws r2 with
                    | [] => raise_errmsg d ExpectingComma 0
                    | c2 :: r3 =>
                        if (c2 =? ch "}")%N
                        then Ok (JDict (rev ((key, v) :: acc))) r3
                        else if (c2 =? ch ",")%N
                        then object_items d f ((key, v) :: acc) (skip_ws r3)
                        else raise_errmsg d ExpectingComma (length (c2 :: r3))
                    end
                | Err m n => Err m n
                | Halt h => Halt h
                end
          end
      | Err m n => raise_errmsg d m n
      | Halt h => Halt h
      end.
Proof. reflexivity. Qed.







End JsonValues.

(** ** The decoder never runs out of fuel *)

Section JsonFuel.
Import Json.

Variables digits frames : nat.

Local Abbreviation scan_once := (Json.scan_once digits frames).
Local Abbreviation array_items := (Json.array_items digits frames).
Local Abbreviation object_items := (Json.object_items digits frames).
Local Abbreviation int_too_long := (Json.int_too_long digits).

Lemma skip_ws_length (s : str) : length (skip_ws s) <= length s.
Proof.
  induction s as [|c s IH]; simpl; [lia|].
  destruct (is_ws c); simpl; lia.
Qed.

(** A string literal takes its closing quote at least. *)
Lemma scanstring_shorter (f b : nat) :
  forall (acc s x r : str),
    scanstring f b acc s = Ok x r -> length r < length s.
Proof.
  induction f as [|f IH]; intros acc s x r H; [discriminate|].
  destruct s as [|c s1]; [discriminate|]. rewrite scanstring_eq in H.
  destruct (c =? DQUOTE)%N.
  { injection H as _ <-. simpl. lia. }
  destruct (c =? BACKSLASH)%N.
  2:{ destruct (c <=? 31)%N; [discriminate|].
      apply IH in H. simpl. lia. }
  destruct s1 as [|e s2]; [discriminate|].
  destruct (e =? ch "u")%N.
  2:{ destruct (unescape e); [|discriminate]. apply IH in H. simpl. lia. }
  destruct (length s2 <? 5)%nat; [discriminate|].
  destruct (hex4 s2) as [[uni s3]|] eqn:Hh; [|discriminate].
  apply hex4_length in Hh.
  destruct (is_high_surrogate uni && (7 <=? length s3)%nat
            && startswith s3 [BACKSLASH; ch "u"]).
  2:{ apply IH in H. simpl. lia. }
  destruct (hex4 (skipn 2 s3)) as [[uni2 s4]|] eqn:Hh2; [|discriminate].
  apply hex4_length in Hh2. rewrite length_skipn in Hh2.
  destruct (is_low_surrogate uni2); apply IH in H; simpl; lia.
Qed.

Lemma span_length (p : char -> bool) (s : str) :
  length (snd (span p s)) <= length s.
Proof.
  induction s as [|c s IH]; simpl; [lia|].
  destruct (p c); [|simpl; lia].
  destruct (span p s). simpl in *. lia.
Qed.

Lemma match_frac_length (s : str) : length (snd (match_frac s)) <= length s.
Proof.
  destruct s as [|dot [|d s]]; try (simpl; lia). rewrite match_frac_eq.
  destruct ((dot =? ch ".")%N && is_digit d); [|simpl; lia].
  pose proof (span_length is_digit s). destruct (span is_digit s).
  simpl in *. lia.
Qed.

Lemma match_exp_length (s : str) : length (snd (match_exp s)) <= length s.
Proof.
  destruct s as [|e s]; [simpl; lia|]. rewrite match_exp_eq.
  destruct ((e =? ch "e") || (e =? ch "E"))%N; [|simpl; lia].
  destruct s as [|sg s].
  - simpl. lia.
  - destruct ((sg =? ch "-") || (sg =? ch "+"))%N.
    + pose proof (span_length is_digit s).
      destruct (span is_digit s) as [[|d ds] r]; simpl in *; lia.
    + pose proof (span_length is_digit (sg :: s)).
      destruct (span is_digit (sg :: s)) as [[|d ds] r]; simpl in *; lia.
Qed.

Lemma after_integer_length (neg : bool) (integer s r : str) (v : value) :
  after_integer neg integer s = Some (v, r) -> length r <= length s.
Proof.
  unfold after_integer. pose proof (match_frac_length s) as H1.
  destruct (match_frac s) as [frac s4]. pose proof (match_exp_length s4) as H2.
  destruct (match_exp s4) as [exp s5]. intros [= _ <-]. simpl in *. lia.
Qed.

Lemma match_unsigned_shorter (neg : bool) (s r : str) (v : value) :
  match_unsigned neg s = Some (v, r) -> length r < length s.
Proof.
  destruct s as [|d s]; [discriminate|]. rewrite match_unsigned_eq.
  destruct (is_digit19 d).
  - pose proof (span_length is_digit s) as H1.
    destruct (span is_digit s) as [ds s3].
    intros H%after_integer_length. simpl in *. lia.
  - destruct (d =? ch "0")%N; [|discriminate].
    intros H%after_integer_length. simpl. lia.
Qed.

Lemma match_number_shorter (s r : str) (v : value) :
  match_number s = Some (v, r) -> length r < length s.
Proof.
  destruct s as [|c s]; [discriminate|]. rewrite match_number_eq.
  destruct (c =? ch "-")%N; intros H%match_unsigned_shorter; simpl in *; lia.
Qed.

Lemma match_constant_shorter (s r : str) (v : value) :
  match_constant s = Some (v, r) -> length r < length s.
Proof.
  unfold match_constant.
  repeat match goal with
         | |- context [drop_prefix ?p s] =>
             let E := fresh "E" in
             destruct (drop_prefix p s) eqn:E;
             [apply drop_prefix_Some in E; intros [= _ <-]; subst s;
              rewrite length_app; simpl; lia|]
         end.
  discriminate.
Qed.

(** Every value takes at least one character. *)
Lemma scan_shorter (f : nat) :
  forall d,
    (forall s v r, scan_once d f s = Ok v r -> length r < length s) /\
    (forall acc s v r, array_items d f acc s = Ok v r ->
                       length r < length s) /\
    (forall acc s v r, object_items d f acc s = Ok v r ->
                       length r < length s).
Proof.
  induction f as [|f IH]; intros d.
  { repeat split; intros; no_scan. }
  destruct (IH d) as (IHs & IHa & IHo).
  split; [|split].
  - intros s v r H. destruct s as [|c s1]; [no_scan|].
    rewrite scan_once_eq in H.
    destruct (c =? DQUOTE)%N.
    { destruct (scanstring _ _ [] s1) as [x r1| |] eqn:E; try no_scan.
      injection H as _ <-. apply scanstring_shorter in E. simpl. lia. }
    destruct (c =? ch "{")%N.
    { destruct d as [|d']; [no_scan|].
      pose proof (skip_ws_length s1) as Hw.
      destruct (skip_ws s1) as [|c1 s2]; [no_scan|].
      destruct (c1 =? ch "}")%N.
      - injection H as _ <-. simpl in *. lia.
      - apply (proj2 (proj2 (IH d'))) in H. simpl in *. lia. }
    destruct (c =? ch "[")%N.
    { destruct d as [|d']; [no_scan|].
      pose proof (skip_ws_length s1) as Hw.
      destruct (skip_ws s1) as [|c1 s2]; [no_scan|].
      destruct (c1 =? ch "]")%N.
      - injection H as _ <-. simpl in *. lia.
      - apply (proj1 (proj2 (IH d'))) in H. simpl in *. lia. }
    destruct (match_constant (c :: s1)) as [[v1 r1]|] eqn:E1.
    { injection H as _ <-. now apply match_constant_shorter in E1. }
    destruct (match_number (c :: s1)) as [[v1 r1]|] eqn:E2; [|no_scan].
    destruct (int_too_long v1); [no_scan|].
    injection H as _ <-. now apply match_number_shorter in E2.
  - intros acc s v r H. rewrite array_items_eq in H.
    destruct (scan_once d f s) as [v1 r1| |] eqn:E; try no_scan.
    apply IHs in E. pose proof (skip_ws_length r1) as Hw.
    destruct (skip_ws r1) as [|c r2]; [no_scan|].
    destruct (c =? ch "]")%N.
    { injection H as _ <-. simpl in *. lia. }
    destruct (c =? ch ",")%N; [|no_scan].
    apply IHa in H. pose proof (skip_ws_length r2). simpl in *. lia.
  - intros acc s v r H. destruct s as [|q s1]; [no_scan|].
    rewrite object_items_eq in H.
    destruct (negb (q =? DQUOTE)%N); [no_scan|].
    destruct (scanstring _ _ [] s1) as [key r1| |] eqn:E; try no_scan.
    apply scanstring_shorter in E. pose proof (skip_ws_length r1) as Hw1.
    destruct (skip_ws r1) as [|c r2]; [no_scan|].
    destruct (negb (c =? ch ":")%N); [no_scan|].
    pose proof (skip_ws_length r2) as Hw2.
    destruct (scan_once d f (skip_ws r2)) as [v1 r3| |] eqn:E2;
      try no_scan.
    apply IHs in E2. pose proof (skip_ws_length r3) as Hw3.
    destruct (skip_ws r3) as [|c2 r4]; [no_scan|].
    destruct (c2 =? ch "}")%N.
    { injection H as _ <-. simpl in *. lia. }
    destruct (c2 =? ch ",")%N; [|no_scan].
    apply IHo in H. pose proof (skip_ws_length r4). simpl in *. lia.
Qed.

(** [scanstring] has fuel for every character. *)
Lemma scanstring_fuel (f b : nat) :
  forall (acc s : str) (h : halt),
    length s < f -> scanstring f b acc s <> Halt h.
Proof.
  induction f as [|f IH]; intros acc s h Hl; [lia|].
  destruct s as [|c s1]; [discriminate|]. rewrite scanstring_eq.
  simpl in Hl.
  destruct (c =? DQUOTE)%N; [discriminate|].
  destruct (c =? BACKSLASH)%N.
  2:{ destruct (c <=? 31)%N; [discriminate|]. apply IH. lia. }
  destruct s1 as [|e s2]; [discriminate|]. simpl in Hl.
  destruct (e =? ch "u")%N.
  2:{ destruct (unescape e); [|discriminate]. apply IH. lia. }
  destruct (length s2 <? 5)%nat; [discriminate|].
  destruct (hex4 s2) as [[uni s3]|] eqn:Hh; [|discriminate].
  apply hex4_length in Hh.
  destruct (is_high_surrogate uni && (7 <=? length s3)%nat
            && startswith s3 [BACKSLASH; ch "u"]).
  2:{ apply IH. lia. }
  destruct (hex4 (skipn 2 s3)) as [[uni2 s4]|] eqn:Hh2; [|discriminate].
  apply hex4_length in Hh2. rewrite length_skipn in Hh2.
  destruct (is_low_surrogate uni2); apply IH; lia.
Qed.

(** Two units of fuel for each character are enough. *)
Lemma scan_fuel (f : nat) :
  forall d,
    (forall s, 2 * length s < f -> scan_once d f s <> Halt OutOfFuel) /\
    (forall acc s, 2 * length s + 2 <= f ->
                   array_items d f acc s <> Halt OutOfFuel) /\
    (forall acc s, 2 * length s + 2 <= f ->
                   object_items d f acc s <> Halt OutOfFuel).
Proof.
  induction f as [|f IH]; intros d.
  { repeat split; intros; lia. }
  destruct (IH d) as (IHs & IHa & IHo).
  pose proof (scan_shorter f d) as (Ls & La & Lo).
  split; [|split].
  - intros s Hl. destruct s as [|c s1]; [no_scan|].
    rewrite scan_once_eq. simpl in Hl.
    destruct (c =? DQUOTE)%N.
    { destruct (scanstring _ _ [] s1) as [x r1| |h] eqn:E; try no_scan.
      exfalso.
      apply (scanstring_fuel (length (c :: s1)) (length (c :: s1)) [] s1 h);
        [simpl; lia|exact E]. }
    destruct (c =? ch "{")%N.
    { destruct d as [|d']; [no_scan|].
      pose proof (skip_ws_length s1) as Hw.
      destruct (skip_ws s1) as [|c1 s2]; [no_scan|].
      destruct (c1 =? ch "}")%N; [no_scan|].
      apply (proj2 (proj2 (IH d'))). simpl in *. lia. }
    destruct (c =? ch "[")%N.
    { destruct d as [|d']; [no_scan|].
      pose proof (skip_ws_length s1) as Hw.
      destruct (skip_ws s1) as [|c1 s2]; [no_scan|].
      destruct (c1 =? ch "]")%N; [no_scan|].
      apply (proj1 (proj2 (IH d'))). simpl in *. lia. }
    destruct (match_constant (c :: s1)) as [[v1 r1]|]; [no_scan|].
    destruct (match_number (c :: s1)) as [[v1 r1]|]; [|no_scan].
    destruct (int_too_long v1); no_scan.
  - intros acc s Hl. rewrite array_items_eq.
    destruct (scan_once d f s) as [v1 r1| |h] eqn:E; try no_scan.
    2:{ intros [= ->]. apply (IHs s); [lia|exact E]. }
    apply Ls in E. pose proof (skip_ws_length r1) as Hw.
    destruct (skip_ws r1) as [|c r2]; [no_scan|].
    destruct (c =? ch "]")%N; [no_scan|].
    destruct (c =? ch ",")%N; [|no_scan].
    apply IHa. pose proof (skip_ws_length r2). simpl in *. lia.
  - intros acc s Hl. destruct s as [|q s1]; [no_scan|].
    rewrite object_items_eq. simpl in Hl.
    destruct (negb (q =? DQUOTE)%N); [no_scan|].
    destruct (scanstring _ _ [] s1) as [key r1| |h] eqn:E; try no_scan.
    2:{ exfalso.
        apply (scanstring_fuel (length (q :: s1)) (length (q :: s1)) [] s1 h);
          [simpl; lia|exact E]. }
    apply scanstring_shorter in E. pose proof (skip_ws_length r1) as Hw1.
    destruct (skip_ws r1) as [|c r2]; [no_scan|].
    destruct (negb (c =? ch ":")%N); [no_scan|].
    pose proof (skip_ws_length r2) as Hw2.
    destruct (scan_once d f (skip_ws r2)) as [v1 r3| |h] eqn:E2;
      try no_scan.
    2:{ intros [= ->]. apply (IHs (skip_ws r2)); [simpl in *; lia|exact E2]. }
    apply Ls in E2. pose proof (skip_ws_length r3) as Hw3.
    destruct (skip_ws r3) as [|c2 r4]; [no_scan|].
    destruct (c2 =? ch "}")%N; [no_scan|].
    destruct (c2 =? ch ",")%N; [|no_scan].
    apply IHo. pose proof (skip_ws_length r4). simpl in *. lia.
Qed.


End JsonFuel.

Section JsonRaises.
Import Json.

(** Besides [JSONDecodeError], [json.loads] raises the two exceptions of
    the interpreter's limits and nothing else. *)
Lemma loads_raises (exn : Type) (py : interpreter exn) (x : exn) (s : str) :
  loads py s = DecodeRaises x ->
  x = raise py RecursionLimit \/ x = raise py IntMaxStrDigits.
Proof.
  unfold loads. destruct (startswith s [BOM]); [discriminate|].
  pose proof (proj1 (scan_fuel (max_str_digits py) (error_frames py)
                       (S (2 * length s))
                       (recursion_remaining py + error_frames py))
                (skip_ws s)) as Hf.
  pose proof (skip_ws_length s) as Hw.
  destruct (scan_once (max_str_digits py) (error_frames py)
              (recursion_remaining py + error_frames py)
              (S (2 * length s)) (skip_ws s)) as [v r| |h].
  - destruct (skip_ws r); discriminate.
  - discriminate.
  - intros [= <-]. destruct h; [|now left|now right].
    exfalso. apply Hf; [lia|reflexivity].
Qed.

End JsonRaises.

(** ** Valid documents *)

Section JsonDocuments.
Import Json.









Lemma rstrip_head (c : char) (x : str) :
  isspace c = false -> exists x', rstrip (c :: x) = c :: x'.
Proof.
  intros Hc. rewrite rstrip_cons. destruct (rstrip x) as [|d r].
  - rewrite Hc. now exists [].
  - now eexists.
Qed.





End JsonDocuments.

(** ** Responses that carry a valid document *)

Section Fences.











End Fences.

Section ValidResponses.
Import Json.

Context {exn : Type}.
Variable py : interpreter exn.







End ValidResponses.

(** ** More about the extractor *)

Section ExtractMore.
Import Re.

(** A successful search of a fence pattern cuts the text into the opening,
    the captured text with the whitespace around it, the closing fence and
    what is before and after. *)
Lemma search_fence_Some (opening s : str) (m : match_) :
  search (fence_re opening) s = Some m ->
  exists pre w g w' post,
    s = pre ++ opening ++ (w ++ g ++ w') ++ FENCE ++ post /\
    group1 m = Some g.
Proof.
  intros H. apply search_Some in H as (a & b & -> & H).
  rewrite match_at_fence in H.
  destruct (drop_prefix opening b) as [s1|] eqn:D; [|discriminate].
  apply drop_prefix_Some in D as ->.
  apply star_greedy_Some in H as (w & s2 & -> & H).
  apply star_lazy_Some in H as (g & s3 & -> & H & _).
  destruct (closes s3) eqn:C; [|discriminate]. injection H as <-.
  rewrite firstn_app_exact.
  unfold closes in C. apply startswith_true in C as [post C].
  destruct (lstrip_suffix s3) as (w' & E & _). rewrite C in E.
  exists a, w, g, w', post. split; [|reflexivity].
  rewrite E. now rewrite <- !app_assoc.
Qed.

Lemma search_fence_has_block (opening s : str) (m : match_) :
  search (fence_re opening) s = Some m -> has_block opening s.
Proof.
  intros H. apply search_fence_Some in H as (pre & w & g & w' & post & E & _).
  now exists pre, (w ++ g ++ w'), post.
Qed.

Lemma has_block_strip (opening text : str) :
  has_block opening (strip text) -> has_block opening text.
Proof.
  intros (pre & body & post & E).
  destruct (strip_substring text) as (w1 & w2 & Et & _).
  exists (w1 ++ pre), body, (post ++ w2).
  rewrite Et at 1. rewrite E. now rewrite <- !app_assoc.
Qed.

(** A tagged block is a plain block whose interior begins with [json]. *)
Lemma has_block_tagged_plain (text : str) :
  has_block JSON_FENCE text -> has_block FENCE text.
Proof.
  intros (pre & body & post & ->). now exists pre, (lit "json" ++ body), post.
Qed.

(** A complete block shows in [find] and [in]: the opening is found, and a
    fence stands after it. *)
Lemma has_block_find (opening text : str) :
  has_block opening text ->
  exists i, find opening text = Some i /\
            contains FENCE (skipn (i + length opening) text) = true.
Proof.
  intros H. apply has_first_block in H as (pre & body & post & E & Hf & _).
  exists (length pre). split; [exact Hf|].
  rewrite E, app_assoc, <- length_app, skipn_app, skipn_all, Nat.sub_diag.
  cbn [app skipn]. apply contains_app.
Qed.

(** The three ways through [extract_stripped]. *)
Lemma extract_stripped_spec (x : str) :
  (exists m, search (fence_re JSON_FENCE) x = Some m /\
             extract_stripped x = strip (group_1 m)) \/
  (exists m, search (fence_re FENCE) x = Some m /\
             extract_stripped x = strip (group_1 m)) \/
  (contains FENCE x = false \/ search (fence_re FENCE) x = None) /\
  extract_stripped x = x.
Proof.
  unfold extract_stripped, extract_plain.
  change json_fence_re with (fence_re JSON_FENCE).
  change plain_fence_re with (fence_re FENCE).
  destruct (contains JSON_FENCE x);
    [destruct (search (fence_re JSON_FENCE) x) as [m|];
     [left; now exists m|]|];
    (destruct (contains FENCE x);
     [destruct (search (fence_re FENCE) x) as [m|];
      [right; left; now exists m|right; right; split; [now right|reflexivity]]
     |right; right; split; [now left|reflexivity]]).
Qed.

(** The first plain block of a text is what the plain pattern finds on the
    stripped text. *)
Lemma search_first_plain_block (text pre body post : str) :
  first_block FENCE text pre body post ->
  contains FENCE (strip text) = true /\
  search (fence_re FENCE) (strip text) = Some {| group1 := Some (strip body) |}.
Proof. exact (search_first_block (lit "``") text pre body post). Qed.

(** The extractor on a text without a tagged block and with a first plain
    block. *)
Lemma extract_json_first_plain_block (text pre body post : str) :
  ~ has_block JSON_FENCE text ->
  first_block FENCE text pre body post ->
  _extract_json text = strip body.
Proof.
  intros Hn Hb. apply search_first_plain_block in Hb as [Hc Hs].
  unfold _extract_json, extract_stripped, extract_plain.
  change json_fence_re with (fence_re JSON_FENCE).
  change plain_fence_re with (fence_re FENCE).
  assert (Hj : search (fence_re JSON_FENCE) (strip text) = None).
  { destruct (search (fence_re JSON_FENCE) (strip text)) as [m|] eqn:E;
      [|reflexivity].
    exfalso. apply Hn, has_block_strip.
    exact (search_fence_has_block _ _ _ E). }
  rewrite Hj, Hc, Hs. unfold group_1. cbn [group1].
  destruct (contains JSON_FENCE (strip text)); apply strip_idem.
Qed.

(** X1. A text that holds no complete fenced block, that is, no fence at
    all, one fence, or an opening that is never closed, is returned
    stripped of the whitespace around it and otherwise as it is, fences
    included. *)
Theorem extract_json_without_block (text : str) :
  ~ has_block FENCE text ->
  _extract_json text = strip text.
Proof.
  intros Hn. unfold _extract_json.
  destruct (extract_stripped_spec (strip text))
    as [(m & Hs & _)|[(m & Hs & _)|[_ E]]].
  - exfalso. apply Hn, has_block_tagged_plain, has_block_strip.
    exact (search_fence_has_block _ _ _ Hs).
  - exfalso. apply Hn, has_block_strip.
    exact (search_fence_has_block _ _ _ Hs).
  - exact E.
Qed.

(** An opening that is never closed stays in the text. *)
Lemma extract_json_without_block_witness :
  let text := lit "  ```json {}  " in
  ~ has_block FENCE text /\
  _extract_json text = lit "```json {}".
Proof.
  intros text.
  assert (Hn : ~ has_block FENCE text).
  { intros H. apply has_block_find in H as (i & Hi & Hc).
    vm_compute in Hi. injection Hi as <-. vm_compute in Hc. discriminate. }
  split; [exact Hn|].
  exact (extract_json_without_block text Hn).
Defined.

(** X2. When the text holds no complete json-tagged block but holds a
    complete fenced block, the extractor returns the trimmed interior of
    the first fenced block: the text between the first fence and the next
    fence after it, stripped. A [```json] that is never closed does not
    change this. *)
Theorem extract_json_plain_block (text : str) :
  ~ has_block JSON_FENCE text ->
  has_block FENCE text ->
  exists pre body post,
    first_block FENCE text pre body post /\
    _extract_json text = strip body.
Proof.
  intros Hn H. destruct (has_first_block _ _ H) as (pre & body & post & Hb).
  exists pre, body, post. split; [exact Hb|].
  now apply (extract_json_first_plain_block text pre body post).
Qed.

(** A plain block followed by a tagged opening without a closing fence. *)
Lemma extract_json_plain_block_witness :
  let text := lit "see ``` [1] ```json {" in
  ~ has_block JSON_FENCE text /\
  has_block FENCE text /\
  exists pre body post,
    first_block FENCE text pre body post /\
    _extract_json text = strip body.
Proof.
  intros text.
  assert (Hn : ~ has_block JSON_FENCE text).
  { intros H. apply has_block_find in H as (i & Hi & Hc).
    vm_compute in Hi. injection Hi as <-. vm_compute in Hc. discriminate. }
  assert (Hp : has_block FENCE text).
  { exists (lit "see "), (lit " [1] "), (lit "json {"). reflexivity. }
  split; [exact Hn|]. split; [exact Hp|].
  exact (extract_json_plain_block text Hn Hp).
Defined.

(** X3. What the extractor returns holds no complete fenced block: either
    a block was cut out, and its interior holds no fence, or the text held
    none. *)
Theorem extract_json_leaves_no_block (text : str) :
  ~ has_block FENCE (_extract_json text).
Proof.
  unfold _extract_json.
  destruct (extract_stripped_spec (strip text))
    as [(m & Hs & ->)|[(m & Hs & ->)|[Hx ->]]].
  - intros (a & b & c & E).
    apply (contains_false FENCE _ a (b ++ FENCE ++ c)
             (search_fence_captured _ _ _ Hs)). exact E.
  - intros (a & b & c & E).
    apply (contains_false FENCE _ a (b ++ FENCE ++ c)
             (search_fence_captured _ _ _ Hs)). exact E.
  - intros H. apply has_first_block in H as (pre & body & post & Hb).
    apply search_first_plain_block in Hb as [Hc Hs].
    rewrite strip_idem in Hc, Hs.
    destruct Hx as [Hx|Hx]; congruence.
Qed.

(** X4. The extractor invents nothing: what it returns is a contiguous part
    of the response, so it is never longer than the response. *)
Theorem extract_json_substring (text : str) :
  (exists before after, text = before ++ _extract_json text ++ after) /\
  length (_extract_json text) <= length text.
Proof.
  assert (H : exists before after, text = before ++ _extract_json text ++ after).
  { unfold _extract_json.
    destruct (strip_substring text) as (w1 & w2 & Et & _).
    assert (Hg : forall opening m,
               search (fence_re opening) (strip text) = Some m ->
               exists before after,
                 text = before ++ strip (group_1 m) ++ after).
    { intros opening m Hs.
      apply search_fence_Some in Hs as (pre & w & g & w' & post & E & Hm).
      unfold group_1. rewrite Hm.
      destruct (strip_substring g) as (v1 & v2 & Eg & _).
      exists (w1 ++ pre ++ opening ++ w ++ v1),
             (v2 ++ w' ++ FENCE ++ post ++ w2).
      rewrite Et at 1. rewrite E. rewrite Eg at 1.
      now rewrite <- !app_assoc. }
    destruct (extract_stripped_spec (strip text))
      as [(m & Hs & ->)|[(m & Hs & ->)|[_ ->]]].
    - exact (Hg _ _ Hs).
    - exact (Hg _ _ Hs).
    - now exists w1, w2. }
  split; [exact H|].
  destruct H as (a & b & E). rewrite E at 2. rewrite !length_app. lia.
Qed.

Lemma lstrip_head (s r : str) (c : char) :
  lstrip s = c :: r -> isspace c = false.
Proof.
  induction s as [|d s IH]; simpl; [discriminate|].
  destruct (isspace d) eqn:E; [exact IH|]. now intros [= <- _].
Qed.

Lemma strip_head (s r : str) (c : char) :
  strip s = c :: r -> isspace c = false.
Proof.
  unfold strip. destruct (lstrip s) as [|d l] eqn:E; [discriminate|].
  pose proof (lstrip_head _ _ _ E) as Hd.
  destruct (rstrip_head d l Hd) as [x' ->]. now intros [= <- _].
Qed.

(** X5. What the extractor returns neither begins nor ends with
    whitespace, whichever way the text went through it. *)
Theorem extract_json_trimmed (text : str) :
  (forall c rest, _extract_json text = c :: rest -> isspace c = false) /\
  (forall front c, _extract_json text = front ++ [c] -> isspace c = false).
Proof.
  assert (H : exists x, _extract_json text = strip x).
  { unfold _extract_json.
    destruct (extract_stripped_spec (strip text))
      as [(m & _ & ->)|[(m & _ & ->)|[_ ->]]]; eauto. }
  destruct H as [x ->]. split.
  - intros c rest. apply strip_head.
  - intros front c. unfold strip. apply rstrip_last.
Qed.

End ExtractMore.

(** ** More about the retry loop *)

Section RunnerShape.

Context {service exn json T : Type}.
Variable ollama_chat : service -> str -> list message -> service * (exn + str).
Variable json_loads : str -> decode_result json exn.
Variable schema_cls : schema_class json exn T.
Variable model : str.
Variable max_retries : Z.

Local Abbreviation ask prompt w :=
  (ask_llm_for_json ollama_chat json_loads prompt schema_cls model
     max_retries w).
Local Abbreviation attempt_ := (attempt ollama_chat json_loads schema_cls model).
Local Abbreviation loop := (for_attempt ollama_chat json_loads schema_cls model
                          max_retries).
Local Abbreviation failed := (failed_attempts ollama_chat json_loads schema_cls
                                model).
Local Abbreviation call := (call_llm ollama_chat).
Local Abbreviation numbers a k := (List.map Z.of_nat (seq a k)).

(** The error of a failed attempt carries one of the two labels. *)
Lemma attempt_Invalid (w w' : service) (p e : str) :
  attempt_ w p = (w', Invalid e) -> labelled e.
Proof.
  unfold attempt, parse_and_validate.
  destruct (call w p model) as [w1 [x|raw]]; [discriminate|].
  destruct (json_loads (_extract_json raw)) as [data|d|x]; try discriminate.
  - destruct (model_validate schema_cls data) as [v|d|x]; try discriminate.
    intros [= _ <-]. right. now exists d.
  - intros [= _ <-]. left. now exists d.
Qed.

Lemma failed_attempts_labelled (es : list str) (w w' : service) (p p' : str) :
  failed w p es w' p' -> Forall labelled es.
Proof.
  revert w p; induction es as [|e es IH]; intros w p; simpl; [constructor|].
  intros (w1 & Ha & H). constructor.
  - exact (attempt_Invalid _ _ _ _ Ha).
  - exact (IH _ _ H).
Qed.

(** A run of the loop: failed attempts, fewer than the attempts to run,
    then one attempt that ends it. *)
Lemma loop_shape (k : nat) :
  forall (a : nat) (w : service) (sent : list str) (p : str)
         (le : option str),
    1 <= k -> Z.of_nat (a + k) = max_retries ->
    let r := loop (numbers a k) w sent p le in
    exists es w1 p1,
      failed w p es w1 p1 /\ length es < k /\
      calls r = sent ++ prompts_sent p es ++ [p1] /\
      ((exists v, attempt_ w1 p1 = (final r, Validated v) /\
                  outcome r = Return v) \/
       (exists x, attempt_ w1 p1 = (final r, Faulted x) /\
                  outcome r = Raise (Uncaught x)) \/
       (exists e, attempt_ w1 p1 = (final r, Invalid e) /\
                  S (length es) = k /\
                  outcome r
                  = Raise (ValueError (exhausted_message max_retries e)))).
Proof.
  induction k as [|k IH]; intros a w sent p le Hk Hmax; [lia|].
  simpl. destruct (attempt_ w p) as [w' [v|e|x]] eqn:Ha.
  - exists [], w, p. simpl. repeat split; [lia|].
    left. exists v. now rewrite Ha.
  - destruct (Z.ltb_spec (Z.of_nat a) (max_retries - 1)) as [Hlt|Hge].
    + destruct (IH (S a) w' (sent ++ [p]) (corrective_prompt p e) (Some e))
        as (es & w1 & p1 & Hf & Hl & Hc & Hend); [lia|lia|].
      exists (e :: es), w1, p1. simpl. split; [now exists w'|].
      split; [lia|]. split; [now rewrite Hc, <- app_assoc|].
      destruct Hend as [H|[H|(e' & H1 & H2 & H3)]]; [now left|now right; left|].
      right; right. exists e'. repeat split; trivial. lia.
    + exists [], w, p. simpl. repeat split; [lia|].
      right; right. exists e. rewrite Ha. repeat split. lia.
  - exists [], w, p. simpl. repeat split; [lia|].
    right; left. exists x. now rewrite Ha.
Qed.

(** The same for a call with at least one attempt allowed. *)
Lemma ask_shape (prompt : str) (w : service) :
  (1 <= max_retries)%Z ->
  let r := ask prompt w in
  exists es w1 p1,
    failed w prompt es w1 p1 /\ (Z.of_nat (length es) < max_retries)%Z /\
    calls r = prompts_sent prompt es ++ [p1] /\
    ((exists v, attempt_ w1 p1 = (final r, Validated v) /\
                outcome r = Return v) \/
     (exists x, attempt_ w1 p1 = (final r, Faulted x) /\
                outcome r = Raise (Uncaught x)) \/
     (exists e, attempt_ w1 p1 = (final r, Invalid e) /\
                Z.of_nat (S (length es)) = max_retries /\
                outcome r
                = Raise (ValueError (exhausted_message max_retries e)))).
Proof.
  intros Hmax. unfold ask_llm_for_json. rewrite range_numbers.
  destruct (loop_shape (Z.to_nat max_retries) 0 w [] prompt None)
    as (es & w1 & p1 & Hf & Hl & Hc & Hend); [lia|simpl; lia|].
  exists es, w1, p1. split; [exact Hf|]. split; [lia|].
  split; [exact Hc|].
  destruct Hend as [H|[H|(e & H1 & H2 & H3)]]; [now left|now right; left|].
  right; right. exists e. repeat split; trivial. lia.
Qed.

Lemma ask_no_attempt (prompt : str) (w : service) :
  (max_retries <= 0)%Z ->
  ask prompt w = {| final := w; calls := []; outcome := ReturnNone |}.
Proof.
  intros H. unfold ask_llm_for_json, range.
  now replace (Z.to_nat max_retries) with 0 by lia.
Qed.

(** The prompts of a run, one by one. *)
Lemma nth_prompts_sent (es : list str) :
  forall (p q : str) (i : nat),
    nth_error (prompts_sent p es ++ [fold_left corrective_prompt es p]) i
    = Some q ->
    i <= length es /\ q = fold_left corrective_prompt (firstn i es) p.
Proof.
  induction es as [|e es IH]; intros p q i; simpl.
  - destruct i as [|i]; simpl.
    + intros [= <-]. now split.
    + now destruct i.
  - destruct i as [|i]; simpl.
    + intros [= <-]. split; [lia|reflexivity].
    + intros H. apply IH in H as [H1 H2]. split; [lia|exact H2].
Qed.

Lemma Forall_firstn_of (A : Type) (P : A -> Prop) (n : nat) (l : list A) :
  Forall P l -> Forall P (firstn n l).
Proof.
  intros H. revert n. induction H as [|x l Hx _ IH]; intros [|n]; simpl;
    constructor; auto.
Qed.

(** X6. The service is never called more often than [max_retries] times,
    whatever it answers; with no attempt allowed it is not called, and
    otherwise the first prompt sent is the prompt given. *)
Theorem ask_llm_for_json_call_budget (prompt : str) (w : service) :
  (Z.of_nat (length (calls (ask prompt w))) <= Z.max 0 max_retries)%Z /\
  hd_error (calls (ask prompt w))
  = if (1 <=? max_retries)%Z then Some prompt else None.
Proof.
  destruct (Z.leb_spec 1 max_retries) as [Hmax|Hmax].
  - destruct (ask_shape prompt w Hmax)
      as (es & w1 & p1 & Hf & Hl & Hc & _).
    rewrite Hc. split.
    + rewrite length_app, prompts_sent_length. simpl. lia.
    + destruct es as [|e es]; simpl; [|reflexivity].
      destruct Hf as [_ ->]. reflexivity.
  - rewrite ask_no_attempt by lia. simpl. split; [lia|reflexivity].
Qed.

(** X7. Every prompt sent is the prompt given followed by one corrective
    suffix for each attempt made before it, in order; the prompt given is
    never dropped, shortened or reworded, and each suffix quotes an error
    under one of the two labels of the loop. *)
Theorem ask_llm_for_json_prompts_extend (prompt : str) (w : service)
    (i : nat) (p : str) :
  nth_error (calls (ask prompt w)) i = Some p ->
  exists es,
    length es = i /\ Forall labelled es /\
    p = prompt ++ concat (List.map corrective_suffix es).
Proof.
  destruct (Z.leb_spec 1 max_retries) as [Hmax|Hmax].
  - destruct (ask_shape prompt w Hmax)
      as (es & w1 & p1 & Hf & _ & Hc & _).
    rewrite Hc, (failed_attempts_prompt _ _ _ _ _ _ _ _ _ Hf).
    intros H. apply nth_prompts_sent in H as [Hi ->].
    exists (firstn i es). split; [apply firstn_length_le; exact Hi|].
    split; [|apply fold_corrective].
    apply Forall_firstn_of. exact (failed_attempts_labelled _ _ _ _ _ Hf).
  - rewrite ask_no_attempt by lia. simpl. now destruct i.
Qed.

(** X8. A response that decodes and validates ends the call whatever came
    before: after the failed attempts [es], fewer than [max_retries], the
    value validated from the next response is returned, and that call of
    the service is the last one made. *)
Theorem ask_llm_for_json_returns_after_failures (prompt : str)
    (w w1 w2 : service) (p1 raw : str) (es : list str) (data : json) (v : T) :
  failed w prompt es w1 p1 ->
  (Z.of_nat (length es) < max_retries)%Z ->
  call w1 p1 model = (w2, inr raw) ->
  json_loads (_extract_json raw) = Parsed data ->
  model_validate schema_cls data = Valid v ->
  ask prompt w
  = {| final := w2; calls := prompts_sent prompt es ++ [p1];
       outcome := Return v |}.
Proof.
  intros Hf Hlt Hc Hd Hv.
  rewrite (ask_after_failures ollama_chat json_loads schema_cls model
             max_retries prompt w w1 p1 es Hf Hlt).
  destruct (Z.to_nat max_retries - length es) as [|k] eqn:Hk; [lia|].
  simpl.
  now rewrite (attempt_valid ollama_chat json_loads schema_cls model
                 _ _ _ _ _ _ Hc Hd Hv).
Qed.

(** X9. The value a call returns comes from the first attempt that did
    not fail: every attempt before it ended in a decode error or a
    validation error, and no call of the service follows it. *)
Theorem ask_llm_for_json_returns_first_valid (prompt : str) (w : service)
    (v : T) :
  outcome (ask prompt w) = Return v ->
  exists es w1 p1,
    failed w prompt es w1 p1 /\
    attempt_ w1 p1 = (final (ask prompt w), Validated v) /\
    calls (ask prompt w) = prompts_sent prompt es ++ [p1].
Proof.
  destruct (Z.leb_spec 1 max_retries) as [Hmax|Hmax].
  - destruct (ask_shape prompt w Hmax)
      as (es & w1 & p1 & Hf & _ & Hc & Hend).
    intros Ho. exists es, w1, p1. split; [exact Hf|]. split; [|exact Hc].
    destruct Hend as [(v' & Ha & Hr)|[(x & _ & Hr)|(e & _ & _ & Hr)]];
      rewrite Hr in Ho; try discriminate.
    injection Ho as <-. exact Ha.
  - rewrite ask_no_attempt by lia. discriminate.
Qed.

(** X10. A response that decodes but does not pass [model_validate] is
    retried like one that does not decode: with at least two attempts
    allowed and a valid second response, the call returns the validated
    value after two calls of the service, and the second prompt quotes the
    validation error under the label [Schema validation error]. *)
Theorem ask_llm_for_json_retries_validation_error (prompt : str)
    (w w1 w2 : service) (raw1 e1 raw2 : str) (data1 data2 : json) (v : T) :
  let last_error := lit "Schema validation error: " ++ e1 in
  let prompt2 := corrective_prompt prompt last_error in
  (2 <= max_retries)%Z ->
  call w prompt model = (w1, inr raw1) ->
  json_loads (_extract_json raw1) = Parsed data1 ->
  model_validate schema_cls data1 = ValidationError e1 ->
  call w1 prompt2 model = (w2, inr raw2) ->
  json_loads (_extract_json raw2) = Parsed data2 ->
  model_validate schema_cls data2 = Valid v ->
  ask prompt w
  = {| final := w2; calls := [prompt; prompt2]; outcome := Return v |} /\
  contains last_error prompt2 = true.
Proof.
  intros last_error prompt2 Hmax Hc1 Hd1 Hv1 Hc2 Hd2 Hv2.
  pose proof (attempt_validation_error ollama_chat json_loads schema_cls model
                _ _ _ _ _ _ Hc1 Hd1 Hv1) as Ha1.
  pose proof (attempt_valid ollama_chat json_loads schema_cls model
                _ _ _ _ _ _ Hc2 Hd2 Hv2) as Ha2.
  split; [|apply corrective_prompt_contains].
  rewrite (ask_after_failures ollama_chat json_loads schema_cls model
             max_retries prompt w w1 prompt2 [last_error]).
  - simpl length.
    destruct (Z.to_nat max_retries - 1) as [|k] eqn:Hk; [lia|].
    simpl. now rewrite Ha2.
  - simpl. exists w1. now split.
  - simpl. lia.
Qed.

(** X11. Only [JSONDecodeError] and [ValidationError] are retried. Any
    other exception raised by [json.loads] or by [model_validate] on a
    response ends the call at once and reaches the caller as it is, also
    when attempts are left. *)
Theorem ask_llm_for_json_uncaught_exception (prompt : str)
    (w w1 w2 : service) (p1 raw : str) (es : list str) (x : exn) :
  failed w prompt es w1 p1 ->
  (Z.of_nat (length es) < max_retries)%Z ->
  call w1 p1 model = (w2, inr raw) ->
  (json_loads (_extract_json raw) = DecodeRaises x \/
   exists data, json_loads (_extract_json raw) = Parsed data /\
                model_validate schema_cls data = ValidateRaises x) ->
  ask prompt w
  = {| final := w2; calls := prompts_sent prompt es ++ [p1];
       outcome := Raise (Uncaught x) |}.
Proof.
  intros Hf Hlt Hc Hx.
  assert (Ha : attempt_ w1 p1 = (w2, Faulted x)).
  { unfold attempt, parse_and_validate. rewrite Hc.
    destruct Hx as [->|(data & -> & ->)]; reflexivity. }
  rewrite (ask_after_failures ollama_chat json_loads schema_cls model
             max_retries prompt w w1 p1 es Hf Hlt).
  destruct (Z.to_nat max_retries - length es) as [|k] eqn:Hk; [lia|].
  simpl. now rewrite Ha.
Qed.

(** X12. The loop does not give up early: when a call raises the
    [ValueError] of its last line, the service has been called exactly
    [max_retries] times, every one of these attempts failed, and the
    message quotes the error of the last of them. *)
Theorem ask_llm_for_json_value_error_means_exhausted (prompt : str)
    (w : service) (msg : str) :
  outcome (ask prompt w) = Raise (ValueError msg) ->
  exists es p',
    failed w prompt es (final (ask prompt w)) p' /\
    Z.of_nat (length es) = max_retries /\
    calls (ask prompt w) = prompts_sent prompt es /\
    msg = exhausted_message max_retries (last es []).
Proof.
  destruct (Z.leb_spec 1 max_retries) as [Hmax|Hmax].
  - destruct (ask_shape prompt w Hmax)
      as (es & w1 & p1 & Hf & _ & Hc & Hend).
    intros Ho.
    destruct Hend as [(v' & _ & Hr)|[(x & _ & Hr)|(e & Ha & Hl & Hr)]];
      rewrite Hr in Ho; try discriminate.
    injection Ho as <-.
    exists (es ++ [e]), (corrective_prompt p1 e). split; [|split; [|split]].
    + apply failed_attempts_app. exists w1, p1. split; [exact Hf|].
      simpl. eexists. split; [exact Ha|now split].
    + rewrite length_app. simpl. lia.
    + rewrite Hc, prompts_sent_app.
      now rewrite <- (failed_attempts_prompt _ _ _ _ _ _ _ _ _ Hf).
    + now rewrite last_last.
  - rewrite ask_no_attempt by lia. discriminate.
Qed.

End RunnerShape.

(** ** More runs on scripted services *)

Section RunnerShapeExamples.

Local Abbreviation loads := (Json.loads cpython).
Local Abbreviation QA := (Schemas.QAResponse_cls plain_details py_exception).

(** The second prompt of a run whose first response does not decode. *)
Lemma ask_llm_for_json_prompts_extend_witness :
  let r := ask_scripted example_prompt DEFAULT_MODEL 3
             [inr malformed_response; inr good_response] in
  let p := example_prompt ++ corrective_suffix malformed_error in
  nth_error (calls r) 1 = Some p /\
  exists es,
    length es = 1 /\ Forall labelled es /\
    p = example_prompt ++ concat (List.map corrective_suffix es).
Proof.
  intros r p.
  assert (H : nth_error (calls r) 1 = Some p) by (vm_compute; reflexivity).
  split; [exact H|].
  exact (ask_llm_for_json_prompts_extend scripted_chat loads QA DEFAULT_MODEL
           3 example_prompt
           [inr malformed_response; inr good_response] 1 p H).
Defined.

(** Two failures of different kinds, then a valid response. *)
Lemma ask_llm_for_json_returns_after_failures_witness :
  let w := [inr malformed_response; inr incomplete_response;
            inr good_response] in
  let es := [malformed_error; incomplete_error] in
  let p1 := corrective_prompt
              (corrective_prompt example_prompt malformed_error)
              incomplete_error in
  failed_attempts scripted_chat loads QA DEFAULT_MODEL w example_prompt es
    [inr good_response] p1 /\
  (Z.of_nat (length es) < 3)%Z /\
  call_llm scripted_chat [inr good_response] p1 DEFAULT_MODEL
  = ([], inr good_response) /\
  (exists data,
      loads (_extract_json good_response) = Parsed data /\
      model_validate QA data = Valid good_value) /\
  ask_scripted example_prompt DEFAULT_MODEL 3 w
  = {| final := []; calls := prompts_sent example_prompt es ++ [p1];
       outcome := Return good_value |}.
Proof.
  intros w es p1.
  assert (Hf : failed_attempts scripted_chat loads QA DEFAULT_MODEL w
                 example_prompt es [inr good_response] p1).
  { simpl. eexists. split; [vm_compute; reflexivity|].
    eexists. split; [vm_compute; reflexivity|]. now split. }
  assert (Hlt : (Z.of_nat (length es) < 3)%Z) by (simpl; lia).
  assert (Hc : call_llm scripted_chat [inr good_response] p1 DEFAULT_MODEL
               = ([], inr good_response)) by reflexivity.
  destruct (loads (_extract_json good_response)) as [data|e|x] eqn:Hd;
    try (exfalso; vm_compute in Hd; discriminate Hd).
  assert (Hv : model_validate QA data = Valid good_value).
  { vm_compute in Hd. injection Hd as <-. vm_compute. reflexivity. }
  split; [exact Hf|]. split; [exact Hlt|]. split; [exact Hc|].
  split; [now exists data|].
  exact (ask_llm_for_json_returns_after_failures scripted_chat loads QA
           DEFAULT_MODEL 3 example_prompt w _ _ p1 good_response es data
           good_value Hf Hlt Hc Hd Hv).
Defined.

(** A value returned on the second attempt: the first attempt failed. *)
Lemma ask_llm_for_json_returns_first_valid_witness :
  let w := [inr incomplete_response; inr good_response;
            inr malformed_response] in
  let r := ask_scripted example_prompt DEFAULT_MODEL 3 w in
  outcome r = Return good_value /\
  exists es w1 p1,
    failed_attempts scripted_chat loads QA DEFAULT_MODEL w example_prompt es
      w1 p1 /\
    attempt scripted_chat loads QA DEFAULT_MODEL w1 p1
    = (final r, Validated good_value) /\
    calls r = prompts_sent example_prompt es ++ [p1].
Proof.
  intros w r.
  assert (H : outcome r = Return good_value) by (vm_compute; reflexivity).
  split; [exact H|].
  exact (ask_llm_for_json_returns_first_valid scripted_chat loads QA
           DEFAULT_MODEL 3 example_prompt w good_value H).
Defined.

(** A payload without [answer], then a valid one. *)
Lemma ask_llm_for_json_retries_validation_error_witness :
  let w := [inr incomplete_response; inr good_response] in
  let e1 := lit "1 validation error for QAResponse" ++ [NL]
            ++ lit "answer" ++ [NL] ++ lit "  Field required [type=missing]" in
  let last_error := lit "Schema validation error: " ++ e1 in
  let prompt2 := corrective_prompt example_prompt last_error in
  (2 <= 3)%Z /\
  call_llm scripted_chat w example_prompt DEFAULT_MODEL
  = ([inr good_response], inr incomplete_response) /\
  (exists data1,
      loads (_extract_json incomplete_response) = Parsed data1 /\
      model_validate QA data1 = ValidationError e1) /\
  call_llm scripted_chat [inr good_response] prompt2 DEFAULT_MODEL
  = ([], inr good_response) /\
  (exists data2,
      loads (_extract_json good_response) = Parsed data2 /\
      model_validate QA data2 = Valid good_value) /\
  ask_scripted example_prompt DEFAULT_MODEL 3 w
  = {| final := []; calls := [example_prompt; prompt2];
       outcome := Return good_value |} /\
  contains last_error prompt2 = true.
Proof.
  intros w e1 last_error prompt2.
  assert (H0 : (2 <= 3)%Z) by lia.
  assert (H1 : call_llm scripted_chat w example_prompt DEFAULT_MODEL
               = ([inr good_response], inr incomplete_response))
    by reflexivity.
  destruct (loads (_extract_json incomplete_response)) as [data1|e|x] eqn:H2;
    try (exfalso; vm_compute in H2; discriminate H2).
  assert (H3 : model_validate QA data1 = ValidationError e1).
  { vm_compute in H2. injection H2 as <-. vm_compute. reflexivity. }
  assert (H4 : call_llm scripted_chat [inr good_response] prompt2
                 DEFAULT_MODEL = ([], inr good_response)) by reflexivity.
  destruct (loads (_extract_json good_response)) as [data2|e|x] eqn:H5;
    try (exfalso; vm_compute in H5; discriminate H5).
  assert (H6 : model_validate QA data2 = Valid good_value).
  { vm_compute in H5. injection H5 as <-. vm_compute. reflexivity. }
  split; [exact H0|]. split; [exact H1|]. split; [now exists data1|].
  split; [exact H4|]. split; [now exists data2|].
  exact (ask_llm_for_json_retries_validation_error scripted_chat loads QA
           DEFAULT_MODEL 3 example_prompt w _ _ incomplete_response e1
           good_response data1 data2 good_value H0 H1 H2 H3 H4 H5 H6).
Defined.

(** A decoder at its limit on the second response: the [RecursionError]
    reaches the caller although a third attempt is allowed. *)
Lemma ask_llm_for_json_uncaught_exception_witness :
  let w := [inr good_response; inr good_response] in
  failed_attempts scripted_chat loads_at_limit QA DEFAULT_MODEL w
    example_prompt [] w example_prompt /\
  (Z.of_nat (length (@nil str)) < 3)%Z /\
  call_llm scripted_chat w example_prompt DEFAULT_MODEL
  = ([inr good_response], inr good_response) /\
  loads_at_limit (_extract_json good_response) = DecodeRaises RecursionError /\
  ask_llm_for_json scripted_chat loads_at_limit example_prompt QA
    DEFAULT_MODEL 3 w
  = {| final := [inr good_response]; calls := [example_prompt];
       outcome := Raise (Uncaught RecursionError) |}.
Proof.
  intros w.
  assert (Hf : failed_attempts scripted_chat loads_at_limit QA DEFAULT_MODEL w
                 example_prompt [] w example_prompt) by (now split).
  assert (Hlt : (Z.of_nat (length (@nil str)) < 3)%Z) by (simpl; lia).
  assert (Hc : call_llm scripted_chat w example_prompt DEFAULT_MODEL
               = ([inr good_response], inr good_response)) by reflexivity.
  assert (Hx : loads_at_limit (_extract_json good_response)
               = DecodeRaises RecursionError) by reflexivity.
  split; [exact Hf|]. split; [exact Hlt|]. split; [exact Hc|].
  split; [exact Hx|].
  exact (ask_llm_for_json_uncaught_exception scripted_chat loads_at_limit QA
           DEFAULT_MODEL 3 example_prompt w _ _ example_prompt good_response []
           RecursionError Hf Hlt Hc (or_introl Hx)).
Defined.

(** Three responses, none valid. *)
Lemma ask_llm_for_json_value_error_means_exhausted_witness :
  let w := [inr malformed_response; inr incomplete_response;
            inr malformed_response; inr good_response] in
  let r := ask_scripted example_prompt DEFAULT_MODEL 3 w in
  let msg := lit "Failed after 3 attempts. Last error: " ++ malformed_error in
  outcome r = Raise (ValueError msg) /\
  exists es p',
    failed_attempts scripted_chat loads QA DEFAULT_MODEL w example_prompt es
      (final r) p' /\
    Z.of_nat (length es) = 3%Z /\
    calls r = prompts_sent example_prompt es /\
    msg = exhausted_message 3 (last es []).
Proof.
  intros w r msg.
  assert (H : outcome r = Raise (ValueError msg)) by (vm_compute; reflexivity).
  split; [exact H|].
  exact (ask_llm_for_json_value_error_means_exhausted scripted_chat loads QA
           DEFAULT_MODEL 3 example_prompt w msg H).
Defined.

End RunnerShapeExamples.

(** ** What the schema classes accept *)

Section SchemaMore.
Import Json Schemas.

Lemma validate_str_inr (v : value) (s : str) :
  validate_str v = inr s <-> v = JStr s.
Proof.
  destruct v; simpl; split; intros H; try discriminate; congruence.
Qed.

Lemma required_str_inr (name : str) (data : value)
    (pairs : list (str * value)) (s : str) :
  required_field name validate_str data pairs = inr s <->
  dict_get name pairs = Some (JStr s).
Proof.
  unfold required_field. destruct (dict_get name pairs) as [v|].
  - destruct (validate_str v) as [errs|s'] eqn:E.
    + split; [discriminate|]. intros [= ->]. discriminate.
    + apply validate_str_inr in E as ->. split; congruence.
  - split; discriminate.
Qed.

Lemma validate_Citation_inr (item : value) (c : Citation) :
  validate_Citation item = inr c <-> is_Citation item c.
Proof.
  unfold is_Citation. split.
  - destruct item as [| | | | | |pairs]; try discriminate. simpl.
    destruct (required_field (lit "source_id") validate_str (JDict pairs) pairs)
      as [e1|s] eqn:E1; [discriminate|].
    destruct (required_field (lit "quote") validate_str (JDict pairs) pairs)
      as [e2|q] eqn:E2; [discriminate|].
    intros [= <-]. exists pairs. simpl.
    apply required_str_inr in E1, E2. now repeat split.
  - intros (pairs & -> & H1 & H2). simpl.
    apply (required_str_inr _ (JDict pairs)) in H1, H2.
    rewrite H1, H2. now destruct c.
Qed.

Lemma validate_items_inr (items : list value) :
  forall (i : nat) (l : list Citation),
    validate_items validate_Citation i items = inr l <->
    Forall2 is_Citation items l.
Proof.
  induction items as [|v items IH]; intros i l; simpl.
  - split.
    + intros [= <-]. constructor.
    + intros H. now inversion H.
  - destruct (validate_Citation v) as [e|c] eqn:Ev.
    + split; [discriminate|]. intros H. inversion H as [|? c ? l' Hc Hl]; subst.
      apply validate_Citation_inr in Hc. congruence.
    + destruct (validate_items validate_Citation (S i) items) as [e|l'] eqn:El.
      * split; [discriminate|].
        intros H. inversion H as [|? c' ? l'' Hc Hl]; subst.
        apply (IH (S i)) in Hl. congruence.
      * split.
        -- intros [= <-]. constructor.
           ++ now apply validate_Citation_inr.
           ++ now apply (IH (S i)).
        -- intros H. inversion H as [|? c' ? l'' Hc Hl]; subst.
           apply validate_Citation_inr in Hc. apply (IH (S i)) in Hl.
           congruence.
Qed.

Lemma validate_is_QAResponse (data : value) (r : QAResponse) :
  validate_QAResponse data = inr r -> is_QAResponse data r.
Proof.
  unfold is_QAResponse.
  destruct data as [| | | | | |pairs]; try discriminate. simpl.
  destruct (required_field (lit "answer") validate_str (JDict pairs) pairs)
    as [e1|a] eqn:E1.
  { now destruct (field_with_default (lit "citations")
                    (validate_list validate_Citation) [] pairs). }
  apply required_str_inr in E1.
  unfold field_with_default.
  destruct (dict_get (lit "citations") pairs) as [v|] eqn:Ec.
  - destruct (validate_list validate_Citation v) as [e2|l] eqn:E2;
      [discriminate|].
    intros [= <-]. exists pairs. simpl. rewrite Ec.
    split; [reflexivity|]. split; [exact E1|].
    destruct v as [| | | | |items|]; try discriminate.
    now apply (validate_items_inr items 0).
  - intros [= <-]. exists pairs. simpl. rewrite Ec. now repeat split.
Qed.

Lemma is_QAResponse_validate (data : value) (r : QAResponse) :
  is_QAResponse data r -> validate_QAResponse data = inr r.
Proof.
  intros (pairs & -> & Ha & Hc). simpl.
  apply (required_str_inr _ (JDict pairs)) in Ha. rewrite Ha.
  unfold field_with_default.
  destruct (dict_get (lit "citations") pairs) as [v|].
  - destruct v as [| | | | |items|]; try contradiction.
    apply (validate_items_inr items 0) in Hc. simpl. rewrite Hc.
    now destruct r.
  - destruct r as [a c]. simpl in *. now subst.
Qed.

(** X13. [QAResponse] accepts exactly the payloads its declaration
    describes, and takes the fields as they are: the payload is a dict, its
    [answer] is a string, and its [citations], when the key is there, is a
    list of dicts with the strings [source_id] and [quote]. A payload
    without the key [citations] gets the empty list; other keys are
    ignored; nothing is converted. *)
Theorem QAResponse_accepts (data : value) (r : QAResponse) :
  validate_QAResponse data = inr r <-> is_QAResponse data r.
Proof.
  split; [apply validate_is_QAResponse|apply is_QAResponse_validate].
Qed.

Lemma is_Citation_dump (c : Citation) : is_Citation (Citation_model_dump c) c.
Proof. eexists. split; [reflexivity|]. split; reflexivity. Qed.

Lemma is_QAResponse_dump (r : QAResponse) :
  is_QAResponse (QAResponse_model_dump r) r.
Proof.
  eexists. split; [reflexivity|]. split; [reflexivity|].
  change (dict_get (lit "citations") _)
    with (Some (JList (List.map Citation_model_dump (citations r)))).
  induction (citations r) as [|c l IH]; simpl; constructor;
    [apply is_Citation_dump|exact IH].
Qed.

(** X14. [model_dump] and [model_validate] are inverse to each other on
    instances: validating what an instance dumps gives the instance back,
    with its citations in order. *)
Theorem QAResponse_dump_validate (exn : Type) (details : line_error -> str)
    (r : QAResponse) :
  validate_QAResponse (QAResponse_model_dump r) = inr r /\
  model_validate (QAResponse_cls details exn) (QAResponse_model_dump r)
  = Valid r.
Proof.
  assert (H : validate_QAResponse (QAResponse_model_dump r) = inr r)
    by apply is_QAResponse_validate, is_QAResponse_dump.
  split; [exact H|]. cbn [model_validate QAResponse_cls]. now rewrite H.
Qed.

(** The errors of the items of a list are located by their index. *)
Lemma validate_items_error (A : Type) (validate : value -> validated A)
    (items : list value) :
  forall (k i : nat) (v : value) (ev : list line_error) (e : line_error),
    nth_error items i = Some v -> validate v = inl ev -> In e ev ->
    exists errs,
      validate_items validate k items = inl errs /\
      In {| loc := Index (k + i) :: loc e; type_ := type_ e;
            input := input e |} errs.
Proof.
  induction items as [|x items IH]; intros k i v ev e Hn Hv He.
  - now destruct i.
  - destruct i as [|i]; simpl in Hn.
    + injection Hn as ->. simpl. rewrite Hv. rewrite Nat.add_0_r.
      eexists. split; [reflexivity|].
      apply in_or_app. left. unfold below.
      exact (in_map _ _ _ He).
    + destruct (IH (S k) i v ev e Hn Hv He) as (errs & E & Hin).
      simpl. rewrite E.
      replace (S k + i) with (k + S i) in Hin by lia.
      destruct (validate x) as [ex|a]; eexists; (split; [reflexivity|]);
        first [exact Hin|apply in_or_app; right; exact Hin].
Qed.

(** X15. A citation that lacks a field makes the whole payload fail, and
    the error says where: at [citations], the index of the citation, and
    the name of the missing field. *)
Theorem missing_citation_field_is_located (pairs ps : list (str * value))
    (items : list value) (i : nat) (name : str) :
  dict_get (lit "citations") pairs = Some (JList items) ->
  nth_error items i = Some (JDict ps) ->
  name = lit "source_id" \/ name = lit "quote" ->
  dict_get name ps = None ->
  exists errs,
    validate_QAResponse (JDict pairs) = inl errs /\
    In {| loc := [Key (lit "citations"); Index i; Key name];
          type_ := missing; input := JDict ps |} errs.
Proof.
  intros Hc Hn Hname Hk.
  set (e := {| loc := [Key name]; type_ := missing; input := JDict ps |}).
  assert (Hv : exists ev, validate_Citation (JDict ps) = inl ev /\ In e ev).
  { simpl. unfold required_field.
    destruct Hname as [->| ->]; rewrite Hk.
    - destruct (dict_get (lit "quote") ps) as [v|];
        [destruct (validate_str v)|]; eexists; (split; [reflexivity|]);
        now left.
    - destruct (dict_get (lit "source_id") ps) as [v|];
        [destruct (validate_str v) as [ev|s]|]; eexists;
        (split; [reflexivity|]);
        first [now left|apply in_or_app; right; now left]. }
  destruct Hv as (ev & Hv & He).
  destruct (validate_items_error Citation validate_Citation items 0 i (JDict ps) ev e
              Hn Hv He) as (errs & E & Hin).
  simpl. unfold field_with_default. rewrite Hc. simpl. rewrite E.
  destruct (required_field (lit "answer") validate_str (JDict pairs) pairs)
    as [e1|a]; eexists; (split; [reflexivity|]); simpl.
  - apply in_or_app. right. unfold below.
    exact (in_map (fun e0 => {| loc := Key (lit "citations") :: loc e0;
                                type_ := type_ e0; input := input e0 |})
             _ _ Hin).
  - unfold below.
    exact (in_map (fun e0 => {| loc := Key (lit "citations") :: loc e0;
                                type_ := type_ e0; input := input e0 |})
             _ _ Hin).
Qed.

(** The second citation of a payload has no [quote]. *)
Lemma missing_citation_field_is_located_witness :
  let good := JDict [(lit "source_id", JStr (lit "doc_001"));
                     (lit "quote", JStr (lit "revenue of $50M"))] in
  let ps := [(lit "source_id", JStr (lit "doc_002"))] in
  let pairs := [(lit "answer", JStr (lit "Revenue was $50M"));
                (lit "citations", JList [good; JDict ps])] in
  dict_get (lit "citations") pairs = Some (JList [good; JDict ps]) /\
  nth_error [good; JDict ps] 1 = Some (JDict ps) /\
  dict_get (lit "quote") ps = None /\
  exists errs,
    validate_QAResponse (JDict pairs) = inl errs /\
    In {| loc := [Key (lit "citations"); Index 1; Key (lit "quote")];
          type_ := missing; input := JDict ps |} errs.
Proof.
  intros good ps pairs.
  assert (H1 : dict_get (lit "citations") pairs
               = Some (JList [good; JDict ps])) by reflexivity.
  assert (H2 : nth_error [good; JDict ps] 1 = Some (JDict ps))
    by reflexivity.
  assert (H3 : dict_get (lit "quote") ps = None) by reflexivity.
  split; [exact H1|]. split; [exact H2|]. split; [exact H3|].
  exact (missing_citation_field_is_located pairs ps [good; JDict ps] 1
           (lit "quote") H1 H2 (or_intror eq_refl) H3).
Defined.

End SchemaMore.

(** ** The command line *)

Section MainFacts.
Import Cli.

Context {service exn : Type}.
Variable ollama_chat : service -> str -> list message -> service * (exn + str).
Variable py : Json.interpreter exn.
Variable details : Schemas.line_error -> str.
Variable model_dump_json : Schemas.QAResponse -> Z -> exn + str.
Variable print : str -> option exn.

Local Abbreviation main_ :=
  (main ollama_chat py details model_dump_json print).
Local Abbreviation QA := (Schemas.QAResponse_cls details exn).
Local Abbreviation ask prompt model w :=
  (ask_llm_for_json ollama_chat (Json.loads py) prompt QA model MAX_RETRIES w).
Local Abbreviation last_line result :=
  (match model_dump_json result 2 with
   | inl x => LastLineRaises x
   | inr text =>
       match print text with
       | Some x => LastLineRaises x
       | None => Printed (text ++ [NL])
       end
   end).
Local Abbreviation usage := (lit "Provide --question or use --demo").

(** [main] is left without a question when the demonstration is not asked
    for, a context is given and the question is not. *)
Lemma inputs_without_question (args : Namespace) :
  snd (inputs args) = [] <->
  demo args = false /\ truthy (context args) = true /\
  truthy (question args) = false.
Proof.
  unfold inputs.
  destruct (demo args); simpl.
  - split; [discriminate|]. now intros [? _].
  - destruct (context args) as [[|c s]|]; simpl;
      destruct (question args) as [[|d q]|]; simpl; split;
      try discriminate; try (now intros (_ & ? & ?)); now auto.
Qed.

(** What [main] does with a question in hand. *)
Lemma main_with_question (args : Namespace) (w : service) (c q : str) :
  inputs args = (c, q) -> q <> [] ->
  main_ args w
  = let r := ask (user_prompt c q) (model args) w in
    {| state := final r; prompts := calls r;
       end_ := match outcome r with
               | Return result => last_line result
               | ReturnNone => AttributeError
               | Raise e => Raised e
               end |}.
Proof.
  intros Hi Hq. unfold main. rewrite Hi. now destruct q.
Qed.

Lemma main_first_prompt (args : Namespace) (w : service) (c q : str) :
  inputs args = (c, q) -> q <> [] ->
  hd_error (prompts (main_ args w)) = Some (user_prompt c q).
Proof.
  intros Hi Hq. rewrite (main_with_question args w c q Hi Hq).
  cbn [prompts]. unfold ask_llm_for_json.
  destruct (loop_calls ollama_chat (Json.loads py)
              (Schemas.QAResponse_cls details exn) (model args) MAX_RETRIES
              (range MAX_RETRIES) w [] (user_prompt c q) None)
    as [more Hm]; [discriminate|].
  now rewrite Hm.
Qed.

(** X16. [main] stops with the usage error of [parser.error], exit status
    2, exactly when the demonstration is not asked for, a context is given
    and no question is; an empty string counts as not given. The service
    is not called then. *)
Theorem main_exits_without_question (args : Namespace) (w : service) :
  main_ args w
  = {| state := w; prompts := []; end_ := SystemExit 2 usage |} <->
  demo args = false /\ truthy (context args) = true /\
  truthy (question args) = false.
Proof.
  rewrite <- inputs_without_question.
  destruct (inputs args) as [c q] eqn:Hi. simpl. split.
  - intros H. destruct q as [|d q]; [reflexivity|].
    rewrite (main_with_question args w c (d :: q) Hi) in H by discriminate.
    cbn zeta in H. apply (f_equal end_) in H. cbn [end_] in H.
    destruct (outcome (ask (user_prompt c (d :: q)) (model args) w))
      as [v| |e]; try discriminate.
    destruct (model_dump_json v 2) as [x|text]; [discriminate|].
    destruct (print text); discriminate.
  - intros ->. unfold main. now rewrite Hi.
Qed.


(** X18. The flag [--demo] wins over a context and a question given with
    it, and a command line that gives neither, or gives them empty, is
    treated like [--demo]: the first prompt sent is made of the context
    and the question of the demonstration. *)
Theorem main_demo (args : Namespace) (w : service) :
  demo args = true \/
  (truthy (context args) = false /\ truthy (question args) = false) ->
  hd_error (prompts (main_ args w))
  = Some (user_prompt DEMO_CONTEXT DEMO_QUESTION).
Proof.
  intros H. apply main_first_prompt; [|discriminate].
  unfold inputs. destruct H as [->|[-> ->]]; [reflexivity|].
  now rewrite orb_true_r.
Qed.

(** X19. Without [--demo] and with a question, the first prompt sent is
    the system instructions, the context given, the question given and the
    closing line, in the layout of the source; a context that is not given
    is the empty string. *)
Theorem main_question (args : Namespace) (w : service) (d : char) (q : str) :
  demo args = false ->
  question args = Some (d :: q) ->
  hd_error (prompts (main_ args w))
  = Some (SYSTEM_INSTRUCTIONS ++ [NL; NL] ++ lit "Context:" ++ [NL]
            ++ or_empty (context args) ++ [NL; NL] ++ lit "Question:" ++ [NL]
            ++ (d :: q) ++ [NL; NL] ++ lit "Return ONLY JSON.").
Proof.
  intros Hd Hq. apply (main_first_prompt args w _ (d :: q)); [|discriminate].
  unfold inputs. rewrite Hd, Hq. simpl. now rewrite andb_false_r.
Qed.

End MainFacts.

Section MainExamples.
Import Cli.

(** [--demo] with a context and a question of the user's. *)
Lemma main_demo_witness :
  let args := {| context := Some (lit "Document Z");
                 question := Some (lit "Why?");
                 model := DEFAULT_MODEL; demo := true |} in
  (demo args = true \/
   (truthy (context args) = false /\ truthy (question args) = false)) /\
  hd_error (prompts (main_scripted args [inr good_response]))
  = Some (user_prompt DEMO_CONTEXT DEMO_QUESTION).
Proof.
  intros args.
  assert (H : demo args = true \/
              (truthy (context args) = false /\
               truthy (question args) = false)) by (left; reflexivity).
  split; [exact H|].
  exact (main_demo scripted_chat cpython plain_details answer_only print_any
           args [inr good_response] H).
Defined.

(** A question without a context. *)
Lemma main_question_witness :
  let args := {| context := None; question := Some (lit "Why?");
                 model := DEFAULT_MODEL; demo := false |} in
  demo args = false /\
  question args = Some (lit "Why?") /\
  hd_error (prompts (main_scripted args [inr good_response]))
  = Some (SYSTEM_INSTRUCTIONS ++ [NL; NL] ++ lit "Context:" ++ [NL]
            ++ [] ++ [NL; NL] ++ lit "Question:" ++ [NL]
            ++ lit "Why?" ++ [NL; NL] ++ lit "Return ONLY JSON.").
Proof.
  intros args.
  assert (H1 : demo args = false) by reflexivity.
  assert (H2 : question args = Some (lit "Why?")) by reflexivity.
  split; [exact H1|]. split; [exact H2|].
  exact (main_question scripted_chat cpython plain_details answer_only
           print_any args [inr good_response] _ _ H1 H2).
Defined.

End MainExamples.

(** ** A blank response *)

Section BlankResponse.

Context {service exn T : Type}.
Variable ollama_chat : service -> str -> list message -> service * (exn + str).
Variable py : Json.interpreter exn.
Variable schema_cls : schema_class Json.value exn T.
Variable model : str.

(** X20. A response that is empty or all whitespace is a failed attempt
    like any other: nothing is left of it after extraction, [json.loads]
    finds no value at its first character, and the loop records the decode
    error, whatever the schema class. *)
Theorem blank_response_is_decode_error (w w' : service) (p raw : str) :
  forallb isspace raw = true ->
  call_llm ollama_chat w p model = (w', inr raw) ->
  _extract_json raw = [] /\
  attempt ollama_chat (Json.loads py) schema_cls model w p
  = (w', Invalid (lit "JSON decode error: Expecting value: line 1 column 1 (char 0)")).
Proof.
  intros Hb Hc.
  assert (He : _extract_json raw = []).
  { unfold _extract_json, strip. now rewrite (lstrip_all_space raw Hb). }
  split; [exact He|].
  unfold attempt, parse_and_validate. now rewrite Hc, He.
Qed.

End BlankResponse.

(** A response of two blanks and a line feed. *)
Lemma blank_response_is_decode_error_witness :
  let raw := lit "  " ++ [NL] in
  forallb isspace raw = true /\
  call_llm scripted_chat [inr raw] example_prompt DEFAULT_MODEL
  = ([], inr raw) /\
  _extract_json raw = [] /\
  attempt scripted_chat (Json.loads cpython)
    (Schemas.QAResponse_cls plain_details py_exception) DEFAULT_MODEL
    [inr raw] example_prompt
  = ([], Invalid (lit "JSON decode error: Expecting value: line 1 column 1 (char 0)")).
Proof.
  intros raw.
  assert (H1 : forallb isspace raw = true) by reflexivity.
  assert (H2 : call_llm scripted_chat [inr raw] example_prompt DEFAULT_MODEL
               = ([], inr raw)) by reflexivity.
  split; [exact H1|]. split; [exact H2|].
  exact (blank_response_is_decode_error scripted_chat cpython
           (Schemas.QAResponse_cls plain_details py_exception) DEFAULT_MODEL
           [inr raw] [] example_prompt raw H1 H2).
Defined.

(** ** Responses that carry a valid payload *)

Section ValidResponseClaim.
Import Json.

Context {service exn T : Type}.
Variable ollama_chat : service -> str -> list message -> service * (exn + str).
Variable py : interpreter exn.
Variable schema_cls : schema_class value exn T.
Variable model : str.
Variable max_retries : Z.




End ValidResponseClaim.

Section ValidResponseExamples.
Import Json.

Local Abbreviation QA := (Schemas.QAResponse_cls plain_details py_exception).
Local Abbreviation fence_value :=
  {| Schemas.answer := lit "```"; Schemas.citations := [] |}.



End ValidResponseExamples.
